(** * TabNLP: the dataset merge engine, the join-key suggester and the
    chart recommender

    A shallow embedding of [src/services/dataMerger.js] and
    [src/services/chartRecommender.js] (with the [ChartType] table and the
    [ColumnSchema] typedef of the types module), and the properties the
    specification states about them.

    Modelling conventions.
    - A JS string is a [string] of ASCII characters: [trim] and the regular
      expression class [\s] strip the ASCII white space characters, and
      [toLowerCase] maps [A-Z] to [a-z].
    - A JS number held in a row is an integer of magnitude below [10^21], the
      range in which [String(n)] prints the plain decimal numeral.
    - A row is a plain object read and written by property name: a finite
      map from names to values.  Reading an absent property gives
      [undefined].  Names inherited from [Object.prototype] are not
      modelled.
    - A JS [Map] or [Set] of which only [has], [get], [set] and [add] are
      used is a [gmap] or a [gset]; a [Map] or an object whose iteration
      order is observed ([Array.from(m.values())], [Object.values(o)]) is an
      insertion-ordered association list ([OrdMap]).
    - [Array.prototype.sort] is stable; with a comparator that is a
      difference of integer keys its result is the unique stable sorted
      rearrangement, computed here by insertion. *)

From Stdlib Require Import ZArith Ascii String Sorted Permutation Lia.
From stdpp Require Import base decidable option list strings gmap sets pretty.

Open Scope string_scope.
Open Scope list_scope.
Open Scope Z_scope.

#[local] Set Warnings "-clear-no-such-hyp".

(** ** JavaScript values and strings *)

Inductive value : Type :=
  | VUndefined
  | VNull
  | VBool (b : bool)
  | VNum (n : Z)
  | VStr (s : string).

#[global] Instance value_eq_dec : EqDecision value.
Proof. solve_decision. Defined.

Module Js.

(** [String(v)] *)
Definition String (v : value) : string :=
    match v with
    | VUndefined => "undefined"
    | VNull => "null"
    | VBool true => "true"
    | VBool false => "false"
    | VNum n => pretty n
    | VStr s => s
    end.

(** [a ?? b] *)
Definition nullish (a b : value) : value :=
    match a with
    | VUndefined | VNull => b
    | _ => a
    end.

Definition lowerChar (c : ascii) : ascii :=
    let n := nat_of_ascii c in
    if (65 <=? n)%nat && (n <=? 90)%nat then ascii_of_nat (n + 32) else c.

(** [s.toLowerCase()] *)
Fixpoint toLowerCase (s : string) : string :=
    match s with
    | EmptyString => EmptyString
    | String.String c s' => String.String (lowerChar c) (toLowerCase s')
    end.

Fixpoint trimStart (s : string) : string :=
    match s with
    | EmptyString => EmptyString
    | String.String c s' => if Ascii.is_space c then trimStart s' else s
    end.

Definition trimEnd (s : string) : string :=
    String.rev (trimStart (String.rev s)).

(** [s.trim()] *)
Definition trim (s : string) : string := trimEnd (trimStart s).

(** [s.replace(/[_\s-]/g, '')] *)
Fixpoint stripSeparators (s : string) : string :=
    match s with
    | EmptyString => EmptyString
    | String.String c s' =>
        if Ascii.is_space c || bool_decide (c = "_"%char) || bool_decide (c = "-"%char)
        then stripSeparators s'
        else String.String c (stripSeparators s')
    end.

(** [s.includes(t)] *)
Fixpoint includes (s t : string) : bool :=
    String.prefix t s ||
    match s with
    | EmptyString => false
    | String.String _ s' => includes s' t
    end.

(** [s.slice(0, n)] for a non-negative [n] *)
Fixpoint slice0 (n : nat) (s : string) : string :=
    match n, s with
    | S n', String.String c s' => String.String c (slice0 n' s')
    | _, _ => EmptyString
    end.

(** [arr.sort(cmp)]: stable; [x] stays in front of the elements it does
      not have to follow. *)
Section Sort.
Context {A : Type} (cmp : A → A → Z).

Fixpoint insert (x : A) (l : list A) : list A :=
      match l with
      | [] => [x]
      | y :: l' => if decide (cmp x y ≤ 0) then x :: l else y :: insert x l'
      end.

Definition sort (l : list A) : list A := foldr insert [] l.
End Sort.

End Js.

(** ** Insertion-ordered maps with string keys

    [set] on a key that is present replaces the value and keeps the key's
    position, as [Map.prototype.set] and property assignment do. *)

Module OrdMap.
Section OrdMap.
Context {V : Type}.

Definition t : Type := list (string * V).

Definition empty : t := [].

Fixpoint get (k : string) (m : t) : option V :=
      match m with
      | [] => None
      | (k', v) :: m' => if decide (k = k') then Some v else get k m'
      end.

Definition has (k : string) (m : t) : bool :=
      match get k m with Some _ => true | None => false end.

Fixpoint set (k : string) (v : V) (m : t) : t :=
      match m with
      | [] => [(k, v)]
      | (k', v') :: m' =>
          if decide (k = k') then (k', v) :: m' else (k', v') :: set k v m'
      end.

Definition keys (m : t) : list string := m.*1.
Definition values (m : t) : list V := m.*2.
End OrdMap.
Arguments t : clear implicits.
End OrdMap.

(** ** The types module *)

Module ChartType.
Definition BAR_CLUSTERED := "BAR_CLUSTERED".
Definition BAR_STACKED := "BAR_STACKED".
Definition BAR_PERCENT := "BAR_PERCENT".
Definition BAR_HORIZONTAL := "BAR_HORIZONTAL".
Definition LINE_SMOOTH := "LINE_SMOOTH".
Definition LINE_STRAIGHT := "LINE_STRAIGHT".
Definition AREA_SMOOTH := "AREA_SMOOTH".
Definition AREA_STACKED := "AREA_STACKED".
Definition PIE := "PIE".
Definition DONUT := "DONUT".
Definition ROSE := "ROSE".
Definition SUNBURST := "SUNBURST".
Definition RADIAL_BAR := "RADIAL_BAR".
Definition RADAR := "RADAR".
Definition SCATTER := "SCATTER".
Definition BUBBLE := "BUBBLE".
Definition TREEMAP := "TREEMAP".
Definition HEATMAP := "HEATMAP".
Definition COMBO_BAR_LINE := "COMBO_BAR_LINE".
Definition COMBO_AREA_LINE := "COMBO_AREA_LINE".
Definition KPI_SINGLE := "KPI_SINGLE".
Definition TABLE := "TABLE".
Definition GAUGE := "GAUGE".
Definition SPARKLINE := "SPARKLINE".
End ChartType.

(** [ColumnSchema.type] *)
Inductive ColumnType : Type := TString | TNumber | TDate | TBoolean.

#[global] Instance ColumnType_eq_dec : EqDecision ColumnType.
Proof. solve_decision. Defined.

(** A [ColumnSchema]; [originalName] is the extra property the merge engine
    attaches to the right-hand columns of its result. *)
Record Column : Type := mkColumn {
  name : string;
  type : ColumnType;
  originalName : option string;
}.

#[global] Instance Column_eq_dec : EqDecision Column.
Proof. solve_decision. Defined.

Definition col (n : string) (t : ColumnType) : Column := mkColumn n t None.

(** A data row. *)
Abbreviation Row := (gmap string value).

(** [row[k]], for a row of parsed data and a name [k] of a data field: the
    value of the row's field [k], [undefined] when the row has none.  (Under
    a name that every object inherits, [constructor] or [toString] for
    example, JavaScript reads the inherited member from a row that has no
    such field; the statements below are over the value read.) *)
Definition getField (row : Row) (k : string) : value :=
  default VUndefined (row !! k).

(** ** The merge engine ([dataMerger.js]) *)

Inductive JoinType : Type := Inner | Left | Right | Full | Append.

#[global] Instance JoinType_eq_dec : EqDecision JoinType.
Proof. solve_decision. Defined.

(** The value [mergeDatasets] returns: [{ data, columns }]. *)
Record MergeResult : Type := mkMergeResult {
  data : list Row;
  columns : list Column;
}.

(** The two accumulators the join loops update: the [mergedData] array and
    the [usedRightKeys] set. *)
Record JoinState : Type := mkJoinState {
  mergedData : list Row;
  usedRightKeys : gset string;
}.

Module DataMerger.

Definition normalizeKey (val : value) : string :=
  match val with
  | VNull | VUndefined => "__NULL__"
  | _ => Js.toLowerCase (Js.trim (Js.String val))
  end.

(** [c.originalName || c.name]: an absent or empty [originalName] is falsy. *)
Definition sourceKey (c : Column) : string :=
  match originalName c with
  | Some s => if decide (s = "") then name c else s
  | None => name c
  end.

Definition buildMergedRow (leftRow rightRow : option Row)
    (leftCols renamedRightCols : list Column) : Row :=
  let row :=
    foldl (λ (row : Row) c,
             <[name c := match leftRow with
                         | Some l => Js.nullish (getField l (name c)) VNull
                         | None => VNull
                         end]> row) ∅ leftCols in
  foldl (λ (row : Row) c,
           <[name c := match rightRow with
                       | Some r => Js.nullish (getField r (sourceKey c)) VNull
                       | None => VNull
                       end]> row) row renamedRightCols.

(** The [colMap] of [appendDatasets] after both [forEach] loops. *)
Definition unionColumns (leftColumns rightColumns : list Column)
    : OrdMap.t Column :=
  let colMap :=
    foldl (λ m c, OrdMap.set (name c) c m) OrdMap.empty leftColumns in
  foldl (λ m c, if OrdMap.has (name c) m then m else OrdMap.set (name c) c m)
        colMap rightColumns.

(** The [normalize] closure of [appendDatasets]. *)
Definition normalize (allColNames : list string) (row : Row) : Row :=
  foldl (λ (out : Row) n, <[n := Js.nullish (getField row n) VNull]> out)
        ∅ allColNames.

Definition appendDatasets (leftData rightData : list Row)
    (leftColumns rightColumns : list Column) : MergeResult :=
  let colMap := unionColumns leftColumns rightColumns in
  let mergedColumns := OrdMap.values colMap in
  let allColNames := name <$> mergedColumns in
  {| data := (normalize allColNames <$> leftData)
               ++ (normalize allColNames <$> rightData);
     columns := mergedColumns |}.

(** One step of the loop that fills [rightMap]. *)
Definition indexRow (rightKey : string) (rightMap : gmap string (list Row))
    (row : Row) : gmap string (list Row) :=
  let key := normalizeKey (getField row rightKey) in
  let rightMap :=
    if decide (is_Some (rightMap !! key)) then rightMap
    else <[key := []]> rightMap in
  alter (λ rows, rows ++ [row]) key rightMap.

Definition buildRightMap (rightKey : string) (rightData : list Row)
    : gmap string (list Row) :=
  foldl (indexRow rightKey) ∅ rightData.

(** The callback that builds [renamedRightCols]. *)
Definition renameRight (leftColNames : gset string) (c : Column) : Column :=
  if decide (name c ∈ leftColNames)
  then {| name := name c +:+ "_right"; type := type c;
          originalName := Some (name c) |}
  else {| name := name c; type := type c; originalName := Some (name c) |}.

Definition renamedRightCols (leftColumns rightColumns : list Column)
    (rightKey : string) : list Column :=
  let rightColsFiltered := filter (λ c, name c ≠ rightKey) rightColumns in
  let leftColNames : gset string := list_to_set (name <$> leftColumns) in
  renameRight leftColNames <$> rightColsFiltered.

(** One step of the walk over the left rows. *)
Definition walkLeft (joinType : JoinType) (leftKey : string)
    (leftColumns renamed : list Column) (rightMap : gmap string (list Row))
    (st : JoinState) (leftRow : Row) : JoinState :=
  let key := normalizeKey (getField leftRow leftKey) in
  match rightMap !! key with
  | Some ((_ :: _) as matches) =>
      {| mergedData :=
           foldl (λ acc rightRow,
                    acc ++ [buildMergedRow (Some leftRow) (Some rightRow)
                              leftColumns renamed])
                 (mergedData st) matches;
         usedRightKeys := {[key]} ∪ usedRightKeys st |}
  | _ =>
      if bool_decide (joinType = Left ∨ joinType = Full)
      then {| mergedData :=
                mergedData st
                  ++ [buildMergedRow (Some leftRow) None leftColumns renamed];
              usedRightKeys := usedRightKeys st |}
      else st
  end.

(** One step of the walk over the right rows. *)
Definition walkRight (rightKey : string) (leftColumns renamed : list Column)
    (st : JoinState) (rightRow : Row) : JoinState :=
  let key := normalizeKey (getField rightRow rightKey) in
  if decide (key ∈ usedRightKeys st) then st
  else {| mergedData :=
            mergedData st
              ++ [buildMergedRow None (Some rightRow) leftColumns renamed];
          usedRightKeys := usedRightKeys st |}.

Definition mergeDatasets (leftData rightData : list Row)
    (leftColumns rightColumns : list Column) (leftKey rightKey : string)
    (joinType : JoinType) : MergeResult :=
  if decide (joinType = Append)
  then appendDatasets leftData rightData leftColumns rightColumns
  else
    let rightMap := buildRightMap rightKey rightData in
    let renamed := renamedRightCols leftColumns rightColumns rightKey in
    let mergedColumns := leftColumns ++ renamed in
    let st0 := {| mergedData := []; usedRightKeys := ∅ |} in
    let st1 :=
      foldl (walkLeft joinType leftKey leftColumns renamed rightMap)
            st0 leftData in
    let st2 :=
      if bool_decide (joinType = Right ∨ joinType = Full)
      then foldl (walkRight rightKey leftColumns renamed) st1 rightData
      else st1 in
    {| data := mergedData st2; columns := mergedColumns |}.

End DataMerger.

(** ** The join-key suggester ([dataMerger.js]) *)

Record Suggestion : Type := mkSuggestion {
  leftKey : string;
  rightKey : string;
  confidence : Z;
}.

#[global] Instance Suggestion_eq_dec : EqDecision Suggestion.
Proof. solve_decision. Defined.

Module JoinKeys.

(** [n.toLowerCase().replace(/[_\s-]/g, '')] *)
Definition normalizeName (n : string) : string :=
  Js.stripSeparators (Js.toLowerCase n).

(** The body of the inner callback: what one pair of columns pushes. *)
Definition suggestPair (lc rc : Column) : list Suggestion :=
  let ln := normalizeName (name lc) in
  let rn := normalizeName (name rc) in
  if decide (ln = rn)
  then [ {| leftKey := name lc; rightKey := name rc; confidence := 100 |} ]
  else if Js.includes ln rn || Js.includes rn ln
  then [ {| leftKey := name lc; rightKey := name rc; confidence := 60 |} ]
  else if bool_decide (type lc = type rc)
          && bool_decide (Js.slice0 3 ln = Js.slice0 3 rn)
          && bool_decide (3 < String.length ln)%nat
  then [ {| leftKey := name lc; rightKey := name rc; confidence := 30 |} ]
  else [].

Definition collectSuggestions (leftCols rightCols : list Column)
    : list Suggestion :=
  foldl (λ acc lc, foldl (λ acc rc, acc ++ suggestPair lc rc) acc rightCols)
        [] leftCols.

Definition suggestJoinKeys (leftCols rightCols : list Column)
    : list Suggestion :=
  Js.sort (λ a b, confidence b - confidence a)
          (collectSuggestions leftCols rightCols).

End JoinKeys.

(** ** The chart recommender ([chartRecommender.js]) *)

Module ChartRecommender.

Definition numericCols (columns : list Column) : list Column :=
  filter (λ c, type c = TNumber) columns.

Definition categoricalCols (columns : list Column) : list Column :=
  filter (λ c, type c = TString) columns.

Definition dateCols (columns : list Column) : list Column :=
  filter (λ c, type c = TDate) columns.

(** An element of the returned array: [{ type, score, reason }]. *)
Record Recommendation : Type := add {
  type : string;
  score : Z;
  reason : string;
}.

#[global] Instance Recommendation_eq_dec : EqDecision Recommendation.
Proof. solve_decision. Defined.

(** [!!dimension]: [undefined] and the empty string are falsy. *)
Definition hasDimension (dimension : option string) : bool :=
  match dimension with
  | Some d => negb (bool_decide (d = ""))
  | None => false
  end.

(** [measures?.length || 0] *)
Definition measureCount (measures : option (list string)) : nat :=
  match measures with
  | Some ms => length ms
  | None => 0%nat
  end.

Definition effectiveNumeric (columns : list Column)
    (measures : option (list string)) : nat :=
  if (0 <? measureCount measures)%nat then measureCount measures
  else length (numericCols columns).

Definition effectiveCategorical (columns : list Column)
    (dimension : option string) : nat :=
  if hasDimension dimension then 1%nat else length (categoricalCols columns).

Definition effectiveDate (columns : list Column) : nat :=
  length (dateCols columns).

(** The [scores] array once every rule has run, as a function of the three
    effective counts. *)
Definition rules (effectiveCategorical effectiveNumeric effectiveDate : nat)
    : list Recommendation :=
  let when (b : bool) (l : list Recommendation) := if b then l else [] in
  when ((1 <=? effectiveCategorical)%nat && (1 <=? effectiveNumeric)%nat)
    ([ add ChartType.BAR_CLUSTERED 90 "Compare values across categories";
       add ChartType.BAR_HORIZONTAL 82 "Horizontal comparison for readability" ]
     ++ when (2 <=? effectiveNumeric)%nat
          [ add ChartType.BAR_STACKED 85 "Show composition across categories";
            add ChartType.BAR_PERCENT 78 "Show proportional breakdown" ])
  ++ when ((1 <=? effectiveDate)%nat && (1 <=? effectiveNumeric)%nat)
       [ add ChartType.LINE_SMOOTH 95 "Best for time-series trends";
         add ChartType.LINE_STRAIGHT 88 "Precise trend tracking";
         add ChartType.AREA_SMOOTH 84 "Time trend with volume emphasis";
         add ChartType.AREA_STACKED 80 "Stacked area for cumulative trends" ]
  ++ when ((1 <=? effectiveCategorical)%nat && (1 <=? effectiveNumeric)%nat)
       [ add ChartType.LINE_SMOOTH 70 "Trend across categories";
         add ChartType.AREA_SMOOTH 65 "Area trend across categories" ]
  ++ when ((1 <=? effectiveCategorical)%nat && (1 <=? effectiveNumeric)%nat)
       [ add ChartType.PIE 75 "Show proportions of a whole";
         add ChartType.DONUT 74 "Proportions with a clean center";
         add ChartType.TREEMAP 68 "Hierarchical proportions";
         add ChartType.ROSE 60 "Polar proportional chart";
         add ChartType.SUNBURST 55 "Nested category breakdown" ]
  ++ when (2 <=? effectiveNumeric)%nat
       ([ add ChartType.SCATTER 85 "Correlation between two measures" ]
        ++ when (3 <=? effectiveNumeric)%nat
             [ add ChartType.BUBBLE 80 "Three-variable relationship" ])
  ++ when ((1 <=? effectiveCategorical)%nat && (3 <=? effectiveNumeric)%nat)
       [ add ChartType.RADAR 72 "Multi-metric profile comparison";
         add ChartType.RADIAL_BAR 60 "Radial metric comparison" ]
  ++ when ((1 <=? effectiveCategorical)%nat && (2 <=? effectiveNumeric)%nat)
       [ add ChartType.COMBO_BAR_LINE 82 "Compare bar + trend line";
         add ChartType.COMBO_AREA_LINE 70 "Area + line overlay" ]
  ++ when (1 <=? effectiveNumeric)%nat
       [ add ChartType.KPI_SINGLE 60 "Display a single key metric";
         add ChartType.GAUGE 55 "Gauge indicator for a metric";
         add ChartType.SPARKLINE 50 "Compact inline trend" ]
  ++ when ((2 <=? effectiveCategorical)%nat && (1 <=? effectiveNumeric)%nat)
       [ add ChartType.HEATMAP 75 "Density of values in a matrix" ]
  ++ [ add ChartType.TABLE 40 "Raw data table view" ].

(** The entry of the last, unconditional rule. *)
Definition tableEntry : Recommendation :=
  add ChartType.TABLE 40 "Raw data table view".

Definition scores (columns : list Column) (dimension : option string)
    (measures : option (list string)) : list Recommendation :=
  rules (effectiveCategorical columns dimension)
        (effectiveNumeric columns measures)
        (effectiveDate columns).

(** The body of the de-duplication loop:
    [if (!deduped[s.type] || deduped[s.type].score < s.score) deduped[s.type] = s]. *)
Definition dedupeStep (deduped : OrdMap.t Recommendation)
    (s : Recommendation) : OrdMap.t Recommendation :=
  match OrdMap.get (type s) deduped with
  | None => OrdMap.set (type s) s deduped
  | Some d =>
      if decide (score d < score s) then OrdMap.set (type s) s deduped
      else deduped
  end.

Definition dedupe (scores : list Recommendation) : OrdMap.t Recommendation :=
  foldl dedupeStep OrdMap.empty scores.

Definition recommendCharts (columns : list Column) (dimension : option string)
    (measures : option (list string)) : list Recommendation :=
  Js.sort (λ a b, score b - score a)
          (OrdMap.values (dedupe (scores columns dimension measures))).

End ChartRecommender.

(** ** Vocabulary of the properties *)

(** The comparator [(a, b) => key(b) - key(a)] of both [sort] calls. *)
Definition byKeyDesc {A : Type} (key : A → Z) (a b : A) : Z := key b - key a.

(** [a] may stand in front of [b] in a list ordered by non-increasing key. *)
Definition keyGe {A : Type} (key : A → Z) (a b : A) : Prop := key b ≤ key a.

Section RecommenderVocabulary.
Import ChartRecommender.

(** What the [deduped] object holds once the scores [ss] have been folded in:
    one entry per assigned type, filed under its own type, taken from [ss]
    and of the greatest score [ss] gives that type. *)
Definition dedupeInv (ss : list Recommendation)
    (m : OrdMap.t Recommendation) : Prop :=
  NoDup (OrdMap.keys m)
  ∧ (∀ k e, OrdMap.get k m = Some e →
       type e = k ∧ e ∈ ss ∧ ∀ s, s ∈ ss → type s = k → score s ≤ score e)
  ∧ (∀ s, s ∈ ss → is_Some (OrdMap.get (type s) m)).

End RecommenderVocabulary.

Section JoinVocabulary.
Import DataMerger.

(** The right rows a normalized key matches, in the order of the right
    dataset. *)
Definition matchesOf (rightKey : string) (rightData : list Row)
    (key : string) : list Row :=
  filter (λ r, normalizeKey (getField r rightKey) = key) rightData.

(** The rows one left row contributes to the result: a merged row per match,
    or, when nothing matches, the left row alone in a left or full join and
    nothing otherwise. *)
Definition leftRows (joinType : JoinType) (leftKey rightKey : string)
    (rightData : list Row) (leftColumns renamed : list Column) (l : Row)
    : list Row :=
  match matchesOf rightKey rightData (normalizeKey (getField l leftKey)) with
  | [] =>
      if bool_decide (joinType = Left ∨ joinType = Full)
      then [buildMergedRow (Some l) None leftColumns renamed]
      else []
  | ms => (λ r, buildMergedRow (Some l) (Some r) leftColumns renamed) <$> ms
  end.

(** The right rows whose normalized key is the key of no left row. *)
Definition unmatchedRight (leftKey rightKey : string)
    (leftData rightData : list Row) : list Row :=
  filter (λ r, normalizeKey (getField r rightKey)
               ∉ (λ l, normalizeKey (getField l leftKey)) <$> leftData)
         rightData.

End JoinVocabulary.

(** An object literal. *)
Definition rowOf (fields : list (string * value)) : Row := list_to_map fields.

(** The right columns that the union keeps: those whose name has not been
    seen, neither among [seen] nor earlier in the list. *)
Fixpoint freshColumns (seen : list string) (cols : list Column)
    : list Column :=
  match cols with
  | [] => []
  | c :: cols' =>
      if decide (name c ∈ seen) then freshColumns seen cols'
      else c :: freshColumns (seen ++ [name c]) cols'
  end.

(** How a call of [mergeDatasets] completes as its caller sees it: with a
    thrown error or with the returned result.  The body of the function has
    no [throw] statement, and the operations it performs (property reads on
    row objects, [Map] and [Set] methods, array iteration) are defined on
    every input of its parameter types, so every call completes with a
    result. *)
Inductive MergeError : Type := InvalidJoinKey.

Definition mergeDatasets_call (leftData rightData : list Row)
    (leftColumns rightColumns : list Column) (leftKey rightKey : string)
    (joinType : JoinType) : MergeError + MergeResult :=
  inr (DataMerger.mergeDatasets leftData rightData leftColumns rightColumns
         leftKey rightKey joinType).

Section SuggestionVocabulary.
Import JoinKeys.

(** [t] occurs in [s]. *)
Definition isSubstring (t s : string) : Prop :=
  ∃ pre post, s = pre +:+ t +:+ post.

(** The confidence the specification gives a pair of columns: 100 for equal
    normalized names; otherwise 60 when one normalized name occurs in the
    other; otherwise 30 when the declared types are equal, the first three
    characters of the normalized names agree and the normalized (left) name
    is longer than three characters. *)
Definition pairConfidence (lc rc : Column) (c : Z) : Prop :=
  let ln := normalizeName (name lc) in
  let rn := normalizeName (name rc) in
  (ln = rn ∧ c = 100)
  ∨ (ln ≠ rn ∧ (isSubstring rn ln ∨ isSubstring ln rn) ∧ c = 60)
  ∨ (ln ≠ rn ∧ ¬ (isSubstring rn ln ∨ isSubstring ln rn)
     ∧ type lc = type rc
     ∧ Js.slice0 3 ln = Js.slice0 3 rn
     ∧ (3 < String.length ln)%nat
     ∧ c = 30).

End SuggestionVocabulary.

(** ** Datasets *)

(** A [Dataset]: [{ id, name, columns, data }]. *)
Module Dataset.
Record t : Type := mk {
  id : string;
  name : string;
  columns : list Column;
  data : list Row;
}.
End Dataset.

(** ** The chart designer panel, which shows the recommendations *)

Module DataPanel.








End DataPanel.

(** What [colMap] holds after any number of steps of either loop of
    [appendDatasets], [seen] being the columns visited so far. *)
Definition colMapInv (seen : list Column) (m : OrdMap.t Column) : Prop :=
  NoDup (OrdMap.keys m)
  ∧ (∀ k c, (k, c) ∈ m → name c = k ∧ c ∈ seen)
  ∧ (∀ n, n ∈ OrdMap.keys m ↔ n ∈ name <$> seen).

(** A string of white space only. *)
Fixpoint blank (s : string) : bool :=
  match s with
  | EmptyString => true
  | String.String c s' => Ascii.is_space c && blank s'
  end.

(** A suggestion read from the other dataset's side. *)
Definition swapSuggestion (s : Suggestion) : Suggestion :=
  {| leftKey := rightKey s; rightKey := leftKey s;
     confidence := confidence s |}.

(** A string made of the characters the name normalization deletes: the
    underscore, the hyphen and white space. *)
Fixpoint separators (s : string) : bool :=
  match s with
  | EmptyString => true
  | String.String c s' =>
      (Ascii.is_space c || bool_decide (c = "_"%char)
       || bool_decide (c = "-"%char)) && separators s'
  end.

(** ** The relationship diagram *)

Module RelationshipDiagram.

(** An element of [links], with the [sharedCols] its tooltip lists. *)
Record Link : Type := mkLink {
  source : string;
  target : string;
  value : Z;
  width : Z;
  sharedCols : list string;
}.

(** [Math.max(40, Math.min(80, 30 + ds.columns.length * 3))] *)
Definition symbolSize (ds : Dataset.t) : Z :=
  Z.max 40 (Z.min 80 (30 + Z.of_nat (length (Dataset.columns ds)) * 3)).

(** The columns of [ds2] whose lower-case name is a lower-case column name
    of [ds1]. *)
Definition shared (ds1 ds2 : Dataset.t) : list string :=
  let cols1 : gset string :=
    list_to_set ((λ c, Js.toLowerCase (name c)) <$> Dataset.columns ds1) in
  name <$> filter (λ c, Js.toLowerCase (name c) ∈ cols1)
                  (Dataset.columns ds2).

(** The link pushed for a pair of datasets that share columns. *)
Definition linkOf (ds1 ds2 : Dataset.t) : Link :=
  let sharedCols := shared ds1 ds2 in
  {| source := Dataset.id ds1; target := Dataset.id ds2;
     value := Z.of_nat (length sharedCols);
     width := Z.min 8 (1 + Z.of_nat (length sharedCols) * 2);
     sharedCols := sharedCols |}.

(** The body of the inner loop. *)
Definition pushLink (ds1 : Dataset.t) (links : list Link)
    (ds2 : Dataset.t) : list Link :=
  if (0 <? length (shared ds1 ds2))%nat
  then links ++ [linkOf ds1 ds2]
  else links.

(** The two loops: [i] over all datasets, [j] over the datasets after
    [datasets[i]]. *)
Fixpoint linkLoop (datasets : list Dataset.t) (links : list Link)
    : list Link :=
  match datasets with
  | [] => links
  | ds1 :: rest => linkLoop rest (foldl (pushLink ds1) links rest)
  end.

Definition links (datasets : list Dataset.t) : list Link :=
  linkLoop datasets [].

End RelationshipDiagram.

(** ** The global filter bar: the columns offered for filtering *)

Module GlobalFilterBar.

(** An element of [availableColumns]: [{ ...col, datasets }]. *)
Record AvailableColumn : Type := mkAvailable {
  column : Column;
  datasets : list string;
}.

(** The body of the inner [forEach]: a new name gets an entry; a name seen
    before has the dataset name pushed onto its entry. *)
Definition addColumn (dsName : string) (colMap : OrdMap.t AvailableColumn)
    (c : Column) : OrdMap.t AvailableColumn :=
  match OrdMap.get (name c) colMap with
  | None =>
      OrdMap.set (name c) {| column := c; datasets := [dsName] |} colMap
  | Some entry =>
      OrdMap.set (name c)
        {| column := column entry; datasets := datasets entry ++ [dsName] |}
        colMap
  end.

Definition availableColumns (dss : list Dataset.t) : list AvailableColumn :=
  OrdMap.values
    (foldl (λ colMap ds,
              foldl (addColumn (Dataset.name ds)) colMap (Dataset.columns ds))
           OrdMap.empty dss).

(** Every column of every dataset, with the name of its dataset, in the
    order the loops visit them. *)
Definition visited (dss : list Dataset.t) : list (string * Column) :=
  dss ≫= λ ds, (λ c, (Dataset.name ds, c)) <$> Dataset.columns ds.

(** One step of the two loops taken as one. *)
Definition addVisited (m : OrdMap.t AvailableColumn) (p : string * Column)
    : OrdMap.t AvailableColumn :=
  addColumn p.1 m p.2.

End GlobalFilterBar.

(** * Properties *)

(** ** The stable sort *)

Section SortFacts.
Context {A : Type} (key : A → Z).

Lemma insert_Permutation x l : Js.insert (byKeyDesc key) x l ≡ₚ x :: l.
Proof.
  induction l as [|y l IH]; simpl; [done|].
  case_decide; [done|]. rewrite IH. apply perm_swap.
Qed.

Lemma sort_Permutation l : Js.sort (byKeyDesc key) l ≡ₚ l.
Proof.
  induction l as [|x l IH]; simpl; [done|].
  by rewrite insert_Permutation, IH.
Qed.

Lemma insert_sorted x l :
  StronglySorted (keyGe key) l →
  StronglySorted (keyGe key) (Js.insert (byKeyDesc key) x l).
Proof.
  unfold keyGe, byKeyDesc. induction 1 as [|y l Hl IH Hy]; simpl.
  - repeat constructor.
  - case_decide as Hc.
    + constructor; [by constructor|].
      constructor; [lia|]. eapply Forall_impl; [exact Hy|]. simpl. lia.
    + constructor; [done|].
      rewrite insert_Permutation. constructor; [lia|done].
Qed.

Lemma sort_sorted l : StronglySorted (keyGe key) (Js.sort (byKeyDesc key) l).
Proof.
  induction l as [|x l IH]; simpl; [constructor|]. by apply insert_sorted.
Qed.

(** Stability: elements of equal key keep their relative order. *)
Lemma insert_stable v x l :
  filter (λ a, key a = v) (Js.insert (byKeyDesc key) x l)
  = filter (λ a, key a = v) (x :: l).
Proof.
  unfold byKeyDesc. induction l as [|y l IH]; simpl; [done|].
  case_decide as Hc; [done|].
  rewrite filter_cons, IH, !filter_cons.
  repeat case_decide; try done; lia.
Qed.

Lemma sort_stable v l :
  filter (λ a, key a = v) (Js.sort (byKeyDesc key) l) = filter (λ a, key a = v) l.
Proof.
  induction l as [|x l IH]; simpl; [done|].
  rewrite insert_stable, !filter_cons, IH. done.
Qed.

Lemma elem_of_sort x l : x ∈ Js.sort (byKeyDesc key) l ↔ x ∈ l.
Proof. by rewrite sort_Permutation. Qed.

End SortFacts.

(** ** Insertion-ordered maps *)

Section OrdMapFacts.
Context {V : Type}.
Implicit Types (m : OrdMap.t V) (k : string) (v : V).

Lemma ordmap_get_set_eq k v m : OrdMap.get k (OrdMap.set k v m) = Some v.
Proof.
  induction m as [|[k' v'] m IH]; simpl.
  - by rewrite decide_True.
  - destruct (decide (k = k')) as [->|Hne]; simpl.
    + by rewrite decide_True.
    + by rewrite decide_False.
Qed.

Lemma ordmap_get_set_ne k k' v m :
  k ≠ k' → OrdMap.get k' (OrdMap.set k v m) = OrdMap.get k' m.
Proof.
  intros Hne. induction m as [|[k0 v0] m IH]; simpl.
  - by rewrite decide_False.
  - destruct (decide (k = k0)) as [->|Hk]; simpl.
    + by rewrite !decide_False.
    + by rewrite IH.
Qed.

Lemma ordmap_get_None k m : OrdMap.get k m = None ↔ k ∉ OrdMap.keys m.
Proof.
  unfold OrdMap.keys. induction m as [|[k' v'] m IH]; simpl.
  - split; [intros _; apply not_elem_of_nil | done].
  - rewrite not_elem_of_cons. case_decide; naive_solver.
Qed.

Lemma ordmap_get_Some_elem k v m : OrdMap.get k m = Some v → (k, v) ∈ m.
Proof.
  induction m as [|[k' v'] m IH]; simpl; [done|].
  case_decide; intros ?; simplify_eq; [left | right; auto].
Qed.

Lemma ordmap_elem_get k v m :
  NoDup (OrdMap.keys m) → (k, v) ∈ m → OrdMap.get k m = Some v.
Proof.
  unfold OrdMap.keys. induction m as [|[k' v'] m IH]; simpl.
  - intros _ ?%elem_of_nil. done.
  - intros [Hk Hm]%NoDup_cons [?|Hin]%elem_of_cons; simplify_eq.
    + by rewrite decide_True.
    + rewrite decide_False; [auto|]. intros ->. apply Hk.
      apply (list_elem_of_fmap_2 fst) in Hin. done.
Qed.

Lemma ordmap_keys_set_present k v m :
  k ∈ OrdMap.keys m → OrdMap.keys (OrdMap.set k v m) = OrdMap.keys m.
Proof.
  unfold OrdMap.keys. induction m as [|[k' v'] m IH]; simpl.
  - intros ?%elem_of_nil. done.
  - intros Hin. case_decide; simpl; [done|].
    f_equal. apply IH. apply elem_of_cons in Hin as [?|?]; done.
Qed.

Lemma ordmap_set_fresh k v m :
  k ∉ OrdMap.keys m → OrdMap.set k v m = m ++ [(k, v)].
Proof.
  unfold OrdMap.keys. induction m as [|[k' v'] m IH]; simpl; [done|].
  intros [? ?]%not_elem_of_cons. rewrite decide_False by done.
  by rewrite IH.
Qed.

Lemma ordmap_keys_set_NoDup k v m :
  NoDup (OrdMap.keys m) → NoDup (OrdMap.keys (OrdMap.set k v m)).
Proof.
  intros Hnd. destruct (decide (k ∈ OrdMap.keys m)) as [Hin|Hnin].
  - by rewrite ordmap_keys_set_present.
  - rewrite ordmap_set_fresh by done. unfold OrdMap.keys in *.
    rewrite fmap_app. simpl. apply NoDup_app. split_and!; [done| |].
    + intros x Hx ->%list_elem_of_singleton. done.
    + apply NoDup_singleton.
Qed.

Lemma ordmap_has_true k m : OrdMap.has k m = true ↔ k ∈ OrdMap.keys m.
Proof.
  unfold OrdMap.has. pose proof (ordmap_get_None k m) as H.
  destruct (OrdMap.get k m); split; try done.
  - intros _. destruct (decide (k ∈ OrdMap.keys m)); [done|].
    naive_solver.
  - intros Hin. naive_solver.
Qed.

End OrdMapFacts.

(** ** The recommender: de-duplication and ranking *)

Section Dedupe.
Import ChartRecommender.

Lemma dedupeInv_nil : dedupeInv [] OrdMap.empty.
Proof.
  split_and!; [constructor|done|]. by intros s ?%elem_of_nil.
Qed.

Lemma dedupeInv_step ss m s :
  dedupeInv ss m → dedupeInv (ss ++ [s]) (dedupeStep m s).
Proof.
  intros (Hnd & Hget & Hall). unfold dedupeStep.
  destruct (OrdMap.get (type s) m) as [d|] eqn:Hd;
    [destruct (decide (score d < score s)) as [Hlt|Hge]|].
  - (* a greater score replaces the entry *)
    destruct (Hget _ _ Hd) as (_ & _ & Hmax).
    split_and!; [by apply ordmap_keys_set_NoDup| |].
    + intros k e. destruct (decide (type s = k)) as [<-|Hne].
      * rewrite ordmap_get_set_eq. intros [= <-].
        split_and!; [done|set_solver|].
        intros s' [Hs'| ->%list_elem_of_singleton]%elem_of_app Ht; [|lia].
        specialize (Hmax _ Hs' Ht). lia.
      * rewrite ordmap_get_set_ne by done. intros He.
        destruct (Hget _ _ He) as (? & ? & Hm). split_and!; [done|set_solver|].
        intros s' [Hs'| ->%list_elem_of_singleton]%elem_of_app Ht;
          [by apply Hm | done].
    + intros s' Hs'. destruct (decide (type s = type s')) as [<-|Hne].
      * rewrite ordmap_get_set_eq. eauto.
      * rewrite ordmap_get_set_ne by done.
        apply elem_of_app in Hs' as [?| ->%list_elem_of_singleton]; [auto|done].
  - (* the entry stays *)
    split_and!; [done| |].
    + intros k e He. destruct (Hget _ _ He) as (Hk & ? & Hm).
      split_and!; [done|set_solver|].
      intros s' [Hs'| ->%list_elem_of_singleton]%elem_of_app Ht;
        [by apply Hm|].
      subst k. rewrite <- Ht, Hd in He. simplify_eq. lia.
    + intros s' [?| ->%list_elem_of_singleton]%elem_of_app; [auto|].
      rewrite Hd. eauto.
  - (* a new type *)
    split_and!; [by apply ordmap_keys_set_NoDup| |].
    + intros k e. destruct (decide (type s = k)) as [<-|Hne].
      * rewrite ordmap_get_set_eq. intros [= <-].
        split_and!; [done|set_solver|].
        intros s' [Hs'| ->%list_elem_of_singleton]%elem_of_app Ht; [|lia].
        destruct (Hall _ Hs') as [x Hx]. rewrite Ht, Hd in Hx. done.
      * rewrite ordmap_get_set_ne by done. intros He.
        destruct (Hget _ _ He) as (? & ? & Hm). split_and!; [done|set_solver|].
        intros s' [Hs'| ->%list_elem_of_singleton]%elem_of_app Ht;
          [by apply Hm | done].
    + intros s' Hs'. destruct (decide (type s = type s')) as [<-|Hne].
      * rewrite ordmap_get_set_eq. eauto.
      * rewrite ordmap_get_set_ne by done.
        apply elem_of_app in Hs' as [?| ->%list_elem_of_singleton]; [auto|done].
Qed.

Lemma dedupe_inv ss : dedupeInv ss (dedupe ss).
Proof.
  unfold dedupe. induction ss as [|s ss IH] using rev_ind.
  - apply dedupeInv_nil.
  - rewrite foldl_app. simpl. by apply dedupeInv_step.
Qed.

Lemma dedupe_entry_type ss k e : (k, e) ∈ dedupe ss → type e = k.
Proof.
  destruct (dedupe_inv ss) as (Hnd & Hget & _). intros Hin.
  apply (ordmap_elem_get _ _ _ Hnd) in Hin. by destruct (Hget _ _ Hin).
Qed.

Lemma dedupe_keys ss :
  OrdMap.keys (dedupe ss) = type <$> OrdMap.values (dedupe ss).
Proof.
  unfold OrdMap.keys, OrdMap.values. rewrite <- list_fmap_compose.
  apply Forall_fmap_ext, Forall_forall. intros [k e] Hin. simpl.
  symmetry. by eapply dedupe_entry_type.
Qed.

Lemma elem_of_dedupe_values ss e :
  e ∈ OrdMap.values (dedupe ss) ↔ OrdMap.get (type e) (dedupe ss) = Some e.
Proof.
  destruct (dedupe_inv ss) as (Hnd & Hget & _). unfold OrdMap.values. split.
  - intros ([k e'] & -> & Hin)%list_elem_of_fmap. simpl.
    rewrite (dedupe_entry_type _ _ _ Hin). by apply ordmap_elem_get.
  - intros Hin%ordmap_get_Some_elem.
    by apply (list_elem_of_fmap_2 snd) in Hin.
Qed.

(** The array [Object.values(deduped)], sorted: the facts both the ranking
    and the table entry rest on. *)
Lemma sorted_dedupe_facts (ss : list Recommendation) :
  let res := Js.sort (byKeyDesc score) (OrdMap.values (dedupe ss)) in
  NoDup (type <$> res)
  ∧ (∀ e, e ∈ res →
       e ∈ ss ∧ ∀ s, s ∈ ss → type s = type e → score s ≤ score e)
  ∧ (∀ s, s ∈ ss → ∃ e, e ∈ res ∧ type e = type s).
Proof.
  intros res. subst res.
  destruct (dedupe_inv ss) as (Hnd & Hget & Hall).
  split_and!.
  - rewrite sort_Permutation, <- dedupe_keys. done.
  - intros e He%elem_of_sort%elem_of_dedupe_values.
    destruct (Hget _ _ He) as (_ & ? & ?). done.
  - intros s Hs. destruct (Hall _ Hs) as [e He].
    destruct (Hget _ _ He) as (Ht & _). exists e. split; [|done].
    apply elem_of_sort, elem_of_dedupe_values. by rewrite Ht.
Qed.

(** C5.  Whatever the input, every chart type occurs at most once in the
    list [recommendCharts] returns; its entry is one of the scored entries
    and carries the greatest score any rule gave that type; every type a
    rule scored has an entry; the list is ordered by non-increasing score;
    and entries of equal score stand in the order in which their types were
    first scored, so the order of the output is a function of the input. *)
Theorem recommendCharts_dedup_ranked columns dimension measures :
  let ss := scores columns dimension measures in
  let res := recommendCharts columns dimension measures in
  NoDup (type <$> res)
  ∧ (∀ e, e ∈ res →
       e ∈ ss ∧ ∀ s, s ∈ ss → type s = type e → score s ≤ score e)
  ∧ (∀ s, s ∈ ss → ∃ e, e ∈ res ∧ type e = type s)
  ∧ StronglySorted (keyGe score) res
  ∧ (∀ v, filter (λ e, score e = v) res
          = filter (λ e, score e = v) (OrdMap.values (dedupe ss))).
Proof.
  intros ss res. subst res. unfold recommendCharts. fold ss.
  change (λ a b, score b - score a) with (byKeyDesc score).
  destruct (sorted_dedupe_facts ss) as (Hnd & Hin & Hall).
  split_and!; [done..| |].
  - apply sort_sorted.
  - intros v. apply sort_stable.
Qed.

End Dedupe.

(** ** The recommender: the table entry and boolean columns *)

Section Table.
Import ChartRecommender.

(** The rules read the three counts through six threshold tests only. *)
Local Ltac rules_cases c n d :=
  unfold rules;
  destruct (1 <=? c)%nat, (2 <=? c)%nat, (1 <=? n)%nat, (2 <=? n)%nat,
           (3 <=? n)%nat, (1 <=? d)%nat.

Lemma rules_table_last c n d : tableEntry ∈ rules c n d.
Proof.
  rules_cases c n d; cbn [app];
    apply (bool_decide_unpack _); vm_compute; exact I.
Qed.

Lemma rules_table_only c n d :
  Forall (λ s, type s = ChartType.TABLE → s = tableEntry) (rules c n d).
Proof.
  rules_cases c n d; cbn [app];
    apply (bool_decide_unpack _); vm_compute; exact I.
Qed.

(** C3.  For every column list, empty or not, and every assignment of a
    dimension and of measures, the list [recommendCharts] returns is not
    empty and holds the [TABLE] entry, whose score is 40, and [TABLE] has no
    entry of another score; with no column, no dimension and no measure
    (absent, or an empty name, or an empty array) the list is that entry
    alone.  The function is total: it has no failing case. *)
Theorem recommendCharts_has_table columns dimension measures :
  let res := recommendCharts columns dimension measures in
  res ≠ []
  ∧ tableEntry ∈ res
  ∧ score tableEntry = 40
  ∧ (∀ e, e ∈ res → type e = ChartType.TABLE → e = tableEntry)
  ∧ recommendCharts [] None None = [tableEntry]
  ∧ recommendCharts [] (Some "") None = [tableEntry]
  ∧ recommendCharts [] None (Some []) = [tableEntry]
  ∧ recommendCharts [] (Some "") (Some []) = [tableEntry].
Proof.
  intros res.
  destruct (sorted_dedupe_facts (scores columns dimension measures))
    as (_ & Hin & Hall).
  fold (recommendCharts columns dimension measures) in Hin, Hall.
  fold res in Hin, Hall.
  assert (Htbl : tableEntry ∈ res).
  { destruct (Hall tableEntry) as (e & He & Ht); [apply rules_table_last|].
    destruct (Hin _ He) as [Hs _].
    pose proof (rules_table_only
      (effectiveCategorical columns dimension)
      (effectiveNumeric columns measures) (effectiveDate columns)) as Hf.
    rewrite Forall_forall in Hf. by rewrite <- (Hf e Hs Ht). }
  split_and!; try done.
  - intros Hnil. rewrite Hnil in Htbl. by apply elem_of_nil in Htbl.
  - intros e He Ht. destruct (Hin _ He) as [Hs _].
    pose proof (rules_table_only
      (effectiveCategorical columns dimension)
      (effectiveNumeric columns measures) (effectiveDate columns)) as Hf.
    rewrite Forall_forall in Hf. by apply Hf.
Qed.

End Table.

Section BooleanColumns.

Lemma filter_nonboolean (t : ColumnType) (columns : list Column) :
  t ≠ TBoolean →
  filter (λ c, type c = t) (filter (λ c, type c ≠ TBoolean) columns)
  = filter (λ c, type c = t) columns.
Proof.
  intros Ht. induction columns as [|c columns IH]; [done|].
  rewrite !filter_cons. repeat case_decide; rewrite ?filter_cons;
    repeat case_decide; rewrite ?IH; congruence.
Qed.

Lemma scores_nonboolean columns dimension measures :
  ChartRecommender.scores (filter (λ c, type c ≠ TBoolean) columns)
    dimension measures
  = ChartRecommender.scores columns dimension measures.
Proof.
  unfold ChartRecommender.scores, ChartRecommender.effectiveCategorical,
    ChartRecommender.effectiveNumeric, ChartRecommender.effectiveDate,
    ChartRecommender.numericCols, ChartRecommender.categoricalCols,
    ChartRecommender.dateCols.
  by rewrite !filter_nonboolean.
Qed.

Lemma filter_all_boolean (columns : list Column) :
  Forall (λ c, type c = TBoolean) columns →
  filter (λ c, type c ≠ TBoolean) columns = [].
Proof.
  induction 1 as [|c columns Hc _ IH]; [done|].
  rewrite filter_cons. by case_decide.
Qed.

(** C10.  Columns of type [boolean] take no part in the recommendation:
    they are counted neither as numeric, nor as categorical, nor as date
    columns; the result for any input is the result for the input with its
    boolean columns left out, so inserting or deleting a boolean column
    anywhere leaves the result as it was; and a list of boolean columns
    only, with no dimension and no measures, gives the [TABLE] entry
    alone. *)
Theorem boolean_columns_ignored :
  (∀ columns b,
     type b = TBoolean →
     (b ∉ ChartRecommender.numericCols columns)
     ∧ (b ∉ ChartRecommender.categoricalCols columns)
     ∧ (b ∉ ChartRecommender.dateCols columns))
  ∧ (∀ columns dimension measures,
     ChartRecommender.recommendCharts columns dimension measures
     = ChartRecommender.recommendCharts
         (filter (λ c, type c ≠ TBoolean) columns) dimension measures)
  ∧ (∀ pre post b dimension measures,
       type b = TBoolean →
       ChartRecommender.recommendCharts (pre ++ b :: post) dimension measures
       = ChartRecommender.recommendCharts (pre ++ post) dimension measures)
  ∧ (∀ columns,
       Forall (λ c, type c = TBoolean) columns →
       ChartRecommender.recommendCharts columns None None
       = [ChartRecommender.tableEntry]).
Proof.
  assert (H1 : ∀ columns dimension measures,
     ChartRecommender.recommendCharts columns dimension measures
     = ChartRecommender.recommendCharts
         (filter (λ c, type c ≠ TBoolean) columns) dimension measures).
  { intros. unfold ChartRecommender.recommendCharts.
    by rewrite scores_nonboolean. }
  split_and!; [|done| |].
  - intros columns b Hb.
    unfold ChartRecommender.numericCols, ChartRecommender.categoricalCols,
      ChartRecommender.dateCols.
    rewrite !list_elem_of_filter, Hb. naive_solver.
  - intros pre post b d m Hb.
    rewrite (H1 (pre ++ b :: post)), (H1 (pre ++ post)).
    rewrite !filter_app, filter_cons. by rewrite decide_False by tauto.
  - intros columns Hall. rewrite H1, filter_all_boolean by done. done.
Qed.

End BooleanColumns.

(** ** The merge engine: the index, the two walks *)

Section Join.
Import DataMerger.

Lemma buildRightMap_lookup rightKey rightData key :
  buildRightMap rightKey rightData !! key
  = match matchesOf rightKey rightData key with
    | [] => None
    | ms => Some ms
    end.
Proof.
  unfold buildRightMap, matchesOf.
  induction rightData as [|r rightData IH] using rev_ind; [done|].
  rewrite foldl_app, filter_app. simpl. unfold indexRow at 1.
  set (m := foldl (indexRow rightKey) ∅ rightData) in *.
  set (kr := normalizeKey (getField r rightKey)).
  rewrite filter_cons, filter_nil. fold kr.
  destruct (decide (kr = key)) as [<-|Hne].
  - rewrite lookup_alter_eq. case_decide as Hs.
    + rewrite IH in *. destruct (filter _ rightData); [by destruct Hs|done].
    + rewrite lookup_insert_eq. rewrite IH in Hs.
      destruct (filter _ rightData); [done|]. destruct Hs. eauto.
  - rewrite lookup_alter_ne by done. rewrite app_nil_r.
    case_decide; [done|]. by rewrite lookup_insert_ne.
Qed.

Lemma foldl_push {A B} (f : B → A) (acc : list A) (l : list B) :
  foldl (λ acc x, acc ++ [f x]) acc l = acc ++ (f <$> l).
Proof.
  revert acc. induction l as [|x l IH]; intros acc; simpl.
  - by rewrite app_nil_r.
  - by rewrite IH, <- app_assoc.
Qed.

Lemma walkLeft_step joinType leftKey rightKey rightData leftColumns renamed
    st l :
  let key := normalizeKey (getField l leftKey) in
  let st' := walkLeft joinType leftKey leftColumns renamed
               (buildRightMap rightKey rightData) st l in
  mergedData st'
  = mergedData st
      ++ leftRows joinType leftKey rightKey rightData leftColumns renamed l
  ∧ usedRightKeys st'
    = (if decide (matchesOf rightKey rightData key = []) then ∅ else {[key]})
        ∪ usedRightKeys st.
Proof.
  intros key st'. subst st'. unfold walkLeft, leftRows. fold key.
  rewrite buildRightMap_lookup.
  destruct (matchesOf rightKey rightData key) as [|r ms] eqn:Hm.
  - rewrite decide_True by done. case_bool_decide; simpl.
    + split; [done|set_solver].
    + rewrite app_nil_r. split; [done|set_solver].
  - rewrite decide_False by done. cbn [mergedData usedRightKeys].
    by rewrite foldl_push.
Qed.

Lemma walkLeft_fold joinType leftKey rightKey rightData leftColumns renamed
    leftData st :
  let st' := foldl (walkLeft joinType leftKey leftColumns renamed
                      (buildRightMap rightKey rightData)) st leftData in
  mergedData st'
  = mergedData st
      ++ (leftData
            ≫= leftRows joinType leftKey rightKey rightData leftColumns renamed)
  ∧ ∀ key, key ∈ usedRightKeys st' ↔
      key ∈ usedRightKeys st
      ∨ (key ∈ (λ l, normalizeKey (getField l leftKey)) <$> leftData
         ∧ matchesOf rightKey rightData key ≠ []).
Proof.
  revert st. induction leftData as [|l leftData IH]; intros st; simpl.
  - rewrite app_nil_r. split; [done|]. intros key. set_solver.
  - destruct (IH (walkLeft joinType leftKey leftColumns renamed
                    (buildRightMap rightKey rightData) st l)) as [Hd Hu].
    destruct (walkLeft_step joinType leftKey rightKey rightData leftColumns
                renamed st l) as [Hd1 Hu1].
    split.
    + rewrite Hd, Hd1, <- app_assoc. done.
    + intros key. rewrite Hu, Hu1. case_decide; set_solver.
Qed.

Lemma walkRight_fold rightKey leftColumns renamed rightData st :
  let st' := foldl (walkRight rightKey leftColumns renamed) st rightData in
  usedRightKeys st' = usedRightKeys st
  ∧ mergedData st'
    = mergedData st
        ++ ((λ r, buildMergedRow None (Some r) leftColumns renamed)
              <$> filter (λ r, normalizeKey (getField r rightKey)
                               ∉ usedRightKeys st) rightData).
Proof.
  revert st. induction rightData as [|r rightData IH]; intros st; simpl.
  - by rewrite app_nil_r.
  - destruct (IH (walkRight rightKey leftColumns renamed st r)) as [Hu Hd].
    rewrite Hu, Hd. unfold walkRight. rewrite filter_cons.
    case_decide as Hin; simpl.
    + by rewrite decide_False by tauto.
    + rewrite decide_True by done. simpl. by rewrite <- app_assoc.
Qed.

Lemma filter_ext_elem_of {A} (P Q : A → Prop)
    `{!∀ x, Decision (P x)} `{!∀ x, Decision (Q x)} (l : list A) :
  (∀ x, x ∈ l → P x ↔ Q x) → filter P l = filter Q l.
Proof.
  induction l as [|x l IH]; intros Hl; [done|].
  rewrite !filter_cons, IH by (intros; apply Hl; by right).
  pose proof (Hl x (list_elem_of_here _ _)).
  repeat case_decide; tauto.
Qed.

(** A right row is passed over by the second walk exactly when a left row
    carries its normalized key. *)
Lemma unmatched_filter leftKey rightKey leftData rightData
    (used : gset string) :
  (∀ key, key ∈ used ↔
     key ∈ (λ l, normalizeKey (getField l leftKey)) <$> leftData
     ∧ matchesOf rightKey rightData key ≠ []) →
  filter (λ r, normalizeKey (getField r rightKey) ∉ used) rightData
  = unmatchedRight leftKey rightKey leftData rightData.
Proof.
  intros Hused. unfold unmatchedRight. apply filter_ext_elem_of.
  intros r Hr. rewrite Hused.
  assert (matchesOf rightKey rightData (normalizeKey (getField r rightKey))
          ≠ []).
  { intros Hnil. by eapply (filter_nil_not_elem_of _ _ r). }
  tauto.
Qed.

(** The rows of every keyed join, as one expression. *)
Lemma mergeDatasets_join_data leftData rightData leftColumns rightColumns
    leftKey rightKey joinType :
  joinType ≠ Append →
  let renamed := renamedRightCols leftColumns rightColumns rightKey in
  data (mergeDatasets leftData rightData leftColumns rightColumns
          leftKey rightKey joinType)
  = (leftData
       ≫= leftRows joinType leftKey rightKey rightData leftColumns renamed)
    ++ (if bool_decide (joinType = Right ∨ joinType = Full)
        then (λ r, buildMergedRow None (Some r) leftColumns renamed)
               <$> unmatchedRight leftKey rightKey leftData rightData
        else []).
Proof.
  intros Hj renamed. unfold mergeDatasets. rewrite decide_False by done.
  fold renamed. cbn [data].
  destruct (walkLeft_fold joinType leftKey rightKey rightData leftColumns
              renamed leftData {| mergedData := []; usedRightKeys := ∅ |})
    as [Hd Hu].
  cbn [mergedData usedRightKeys] in Hd, Hu.
  case_bool_decide.
  - destruct (walkRight_fold rightKey leftColumns renamed rightData
      (foldl (walkLeft joinType leftKey leftColumns renamed
                (buildRightMap rightKey rightData))
             {| mergedData := []; usedRightKeys := ∅ |} leftData)) as [_ Hr].
    rewrite Hr, Hd. simpl. f_equal. f_equal.
    apply unmatched_filter. intros key. rewrite Hu. set_solver.
  - by rewrite Hd, app_nil_r.
Qed.

End Join.

(** ** The merge engine: row counts and row order *)

Section JoinClaims.
Import DataMerger.

Lemma length_bind_sum {A B} (f : A → list B) (l : list A) :
  length (l ≫= f) = sum_list_with (λ x, length (f x)) l.
Proof.
  induction l as [|x l IH]; [done|].
  rewrite bind_cons, length_app, IH. done.
Qed.

Lemma length_leftRows joinType leftKey rightKey rightData leftColumns renamed
    l :
  length (leftRows joinType leftKey rightKey rightData leftColumns renamed l)
  = let n := length (matchesOf rightKey rightData
                       (normalizeKey (getField l leftKey))) in
    if bool_decide (joinType = Left ∨ joinType = Full)
    then (n `max` 1)%nat else n.
Proof.
  unfold leftRows.
  destruct (matchesOf rightKey rightData _) as [|r ms]; simpl.
  - by case_bool_decide.
  - rewrite length_fmap. case_bool_decide; lia.
Qed.

Lemma sum_list_with_le {A} (f g : A → nat) (l : list A) :
  (∀ x, f x ≤ g x)%nat → (sum_list_with f l ≤ sum_list_with g l)%nat.
Proof.
  intros Hfg. induction l as [|x l IH]; simpl; [lia|].
  specialize (Hfg x). lia.
Qed.

Lemma sum_list_with_ext {A} (f g : A → nat) (l : list A) :
  (∀ x, f x = g x) → sum_list_with f l = sum_list_with g l.
Proof.
  intros Hfg. induction l as [|x l IH]; simpl; [done|]. by rewrite Hfg, IH.
Qed.

(** C2.  For the same datasets and keys an inner join returns at most as
    many rows as a left join, and a left join at most as many as a full
    join: the inner join has, for every left row, as many rows as right rows
    match it; the left join has one row instead of none for a left row
    without a match; the full join has the rows of the left join and one
    more row for every right row whose normalized key is the key of no left
    row. *)
Theorem join_row_counts leftData rightData leftColumns rightColumns
    leftKey rightKey :
  let rows joinType :=
    length (data (mergeDatasets leftData rightData leftColumns rightColumns
                    leftKey rightKey joinType)) in
  let matchCount l :=
    length (matchesOf rightKey rightData
              (normalizeKey (getField l leftKey))) in
  (rows Inner = sum_list_with matchCount leftData
   ∧ rows Left = sum_list_with (λ l, matchCount l `max` 1) leftData
   ∧ rows Full
     = rows Left
       + length (unmatchedRight leftKey rightKey leftData rightData)
   ∧ rows Inner ≤ rows Left ≤ rows Full)%nat.
Proof.
  intros rows matchCount.
  assert (HI : rows Inner = sum_list_with matchCount leftData).
  { subst rows. cbv beta. rewrite mergeDatasets_join_data by done.
    rewrite bool_decide_false by (intros [?|?]; done).
    rewrite app_nil_r, length_bind_sum. apply sum_list_with_ext.
    intros l. rewrite length_leftRows.
    by rewrite bool_decide_false by (intros [?|?]; done). }
  assert (HL : rows Left
               = sum_list_with (λ l, matchCount l `max` 1)%nat leftData).
  { subst rows. cbv beta. rewrite mergeDatasets_join_data by done.
    rewrite bool_decide_false by (intros [?|?]; done).
    rewrite app_nil_r, length_bind_sum. apply sum_list_with_ext.
    intros l. rewrite length_leftRows.
    by rewrite bool_decide_true by (by left). }
  assert (HF : (rows Full
               = rows Left
                 + length (unmatchedRight leftKey rightKey leftData rightData))%nat).
  { rewrite HL. subst rows. cbv beta. rewrite mergeDatasets_join_data by done.
    rewrite bool_decide_true by (by right).
    rewrite length_app, length_fmap, length_bind_sum. f_equal.
    apply sum_list_with_ext. intros l. rewrite length_leftRows.
    by rewrite bool_decide_true by (by right). }
  split_and!; try done.
  - rewrite HI, HL. apply sum_list_with_le. intros l. lia.
  - rewrite HF. lia.
Qed.

End JoinClaims.

Section JoinRows.
Import DataMerger.

(** C6.  In an inner join and in a left join the left rows are taken in
    their order, and a left row that has matches gives one merged row for
    each matching right row, in the order of the right dataset ([matchesOf]
    is a filter of the right rows), so a key repeated on the right repeats
    the left row; a left row without a match gives nothing in an inner join
    and one row without right values in a left join.  With left
    [{id:1,name:"A"}] and right [{id:1,val:10}], [{id:1,val:20}] the inner
    join on [id] has the two rows [{id:1,name:"A",val:10}] and
    [{id:1,name:"A",val:20}]. *)
Theorem inner_left_join_rows leftData rightData leftColumns rightColumns
    leftKey rightKey :
  let renamed := renamedRightCols leftColumns rightColumns rightKey in
  let matches l :=
    matchesOf rightKey rightData (normalizeKey (getField l leftKey)) in
  let merged l :=
    (λ r, buildMergedRow (Some l) (Some r) leftColumns renamed)
      <$> matches l in
  data (mergeDatasets leftData rightData leftColumns rightColumns
          leftKey rightKey Inner)
  = leftData ≫= merged
  ∧ data (mergeDatasets leftData rightData leftColumns rightColumns
            leftKey rightKey Left)
    = leftData ≫= (λ l, if decide (matches l = [])
                         then [buildMergedRow (Some l) None leftColumns renamed]
                         else merged l)
  ∧ data (mergeDatasets
            [rowOf [("id", VNum 1); ("name", VStr "A")]]
            [rowOf [("id", VNum 1); ("val", VNum 10)];
             rowOf [("id", VNum 1); ("val", VNum 20)]]
            [col "id" TNumber; col "name" TString]
            [col "id" TNumber; col "val" TNumber] "id" "id" Inner)
    = [rowOf [("id", VNum 1); ("name", VStr "A"); ("val", VNum 10)];
       rowOf [("id", VNum 1); ("name", VStr "A"); ("val", VNum 20)]].
Proof.
  intros renamed matches merged. split_and!.
  - rewrite mergeDatasets_join_data by done.
    rewrite bool_decide_false by (intros [?|?]; done). rewrite app_nil_r.
    apply list_bind_ext; [|done]. intros l. unfold leftRows, merged, matches.
    fold renamed. rewrite bool_decide_false by (intros [?|?]; done).
    by destruct (matchesOf rightKey rightData _).
  - rewrite mergeDatasets_join_data by done.
    rewrite bool_decide_false by (intros [?|?]; done). rewrite app_nil_r.
    apply list_bind_ext; [|done]. intros l. unfold leftRows, merged, matches.
    fold renamed. rewrite bool_decide_true by (by left).
    by destruct (matchesOf rightKey rightData _).
  - vm_compute. reflexivity.
Qed.

(** A left row and a right row with the same normalized key are matched. *)
Lemma matched_rows_merged leftData rightData leftColumns rightColumns
    leftKey rightKey joinType l r :
  joinType ≠ Append → l ∈ leftData → r ∈ rightData →
  normalizeKey (getField l leftKey) = normalizeKey (getField r rightKey) →
  buildMergedRow (Some l) (Some r) leftColumns
    (renamedRightCols leftColumns rightColumns rightKey)
  ∈ data (mergeDatasets leftData rightData leftColumns rightColumns
            leftKey rightKey joinType).
Proof.
  intros Hj Hl Hr Hk. rewrite mergeDatasets_join_data by done.
  apply elem_of_app. left. apply list_elem_of_bind. exists l.
  split; [|done]. unfold leftRows.
  assert (Hm : r ∈ matchesOf rightKey rightData
                     (normalizeKey (getField l leftKey))).
  { apply list_elem_of_filter. by split. }
  destruct (matchesOf rightKey rightData _) as [|r0 ms];
    [by apply elem_of_nil in Hm|].
  apply list_elem_of_fmap. by exists r.
Qed.

(** C8.  Keys are compared in normalized form.  [null] and [undefined]
    become the sentinel [__NULL__]; any other value becomes its string form,
    trimmed and put in lower case.  Hence two values with the same trimmed
    lower-case string form have the same key (["Foo "] and ["foo"] do), and
    so have two absent keys; and in every keyed join a left row and a right
    row with the same normalized key are matched: their merged row is in
    the result. *)
Theorem normalized_keys_match :
  (∀ v, v = VNull ∨ v = VUndefined → normalizeKey v = "__NULL__")
  ∧ (∀ v, v ≠ VNull → v ≠ VUndefined →
       normalizeKey v = Js.toLowerCase (Js.trim (Js.String v)))
  ∧ (∀ v w, v ≠ VNull → v ≠ VUndefined → w ≠ VNull → w ≠ VUndefined →
       Js.toLowerCase (Js.trim (Js.String v))
       = Js.toLowerCase (Js.trim (Js.String w)) →
       normalizeKey v = normalizeKey w)
  ∧ normalizeKey (VStr "Foo ") = normalizeKey (VStr "foo")
  ∧ (∀ leftData rightData leftColumns rightColumns leftKey rightKey joinType
       l r,
       joinType ≠ Append → l ∈ leftData → r ∈ rightData →
       normalizeKey (getField l leftKey) = normalizeKey (getField r rightKey) →
       buildMergedRow (Some l) (Some r) leftColumns
         (renamedRightCols leftColumns rightColumns rightKey)
       ∈ data (mergeDatasets leftData rightData leftColumns rightColumns
                 leftKey rightKey joinType)).
Proof.
  split_and!.
  - by intros v [-> | ->].
  - by intros [].
  - intros [] [] ?????; done.
  - done.
  - intros. by apply matched_rows_merged.
Qed.

(** At a concrete input: a left key ["Foo "] and a right key ["foo"]. *)
Lemma normalized_keys_match_witness :
  rowOf [("k", VStr "Foo "); ("x", VNum 1); ("y", VNum 2)]
  ∈ data (mergeDatasets
            [rowOf [("k", VStr "Foo "); ("x", VNum 1)]]
            [rowOf [("k", VStr "foo"); ("y", VNum 2)]]
            [col "k" TString; col "x" TNumber]
            [col "k" TString; col "y" TNumber] "k" "k" Inner).
Proof.
  destruct normalized_keys_match as (_ & _ & _ & _ & H).
  apply (H [rowOf [("k", VStr "Foo "); ("x", VNum 1)]]
           [rowOf [("k", VStr "foo"); ("y", VNum 2)]]
           [col "k" TString; col "x" TNumber]
           [col "k" TString; col "y" TNumber] "k" "k" Inner
           (rowOf [("k", VStr "Foo "); ("x", VNum 1)])
           (rowOf [("k", VStr "foo"); ("y", VNum 2)])).
  - discriminate.
  - apply list_elem_of_here.
  - apply list_elem_of_here.
  - reflexivity.
Defined.

End JoinRows.

Section JoinKeysAbsent.
Import DataMerger.

Lemma normalizeKey_nullish (v : value) :
  v = VUndefined ∨ v = VNull → normalizeKey v = "__NULL__".
Proof. by intros [-> | ->]. Qed.

(** C1, the claim refuted.  The left key [zip] is no column of the left
    dataset, the join is an inner join, and the call returns a result (an
    empty one, the absent key matching nothing) instead of failing. *)
Lemma undeclared_key_not_rejected :
  let leftColumns := [col "id" TNumber; col "name" TString] in
  let rightColumns := [col "id" TNumber; col "val" TNumber] in
  Inner ≠ Append
  ∧ ("zip" ∉ name <$> leftColumns)
  ∧ mergeDatasets_call
      [rowOf [("id", VNum 1); ("name", VStr "A")]]
      [rowOf [("id", VNum 1); ("val", VNum 10)]]
      leftColumns rightColumns "zip" "id" Inner
    = inr {| data := [];
             columns := [col "id" TNumber; col "name" TString;
                         mkColumn "val" TNumber (Some "val")] |}
  ∧ mergeDatasets_call
      [rowOf [("id", VNum 1); ("name", VStr "A")]]
      [rowOf [("id", VNum 1); ("val", VNum 10)]]
      leftColumns rightColumns "zip" "id" Inner
    ≠ inl InvalidJoinKey.
Proof.
  split_and!; [done| |vm_compute; reflexivity|done].
  intros Hin. by apply (bool_decide_pack _) in Hin.
Qed.

(** C1, amended.  [mergeDatasets] validates no key.  For every keyed join
    and every pair of key names, declared or not, the call returns a merge
    result.  The join goes by the value read from each row under the key
    name: a row whose read gives [undefined] or [null] is given the null key
    [__NULL__], so a left row and a right row whose key reads are both
    [undefined] or [null] are matched with each other.  (A row with no field
    of the key's name reads [undefined], except under a name every object
    inherits, such as [constructor], where the read gives the inherited
    member.) *)
Theorem undeclared_key_joins_as_null leftData rightData leftColumns
    rightColumns leftKey rightKey joinType :
  joinType ≠ Append →
  mergeDatasets_call leftData rightData leftColumns rightColumns
    leftKey rightKey joinType
  = inr (mergeDatasets leftData rightData leftColumns rightColumns
           leftKey rightKey joinType)
  ∧ (∀ l, getField l leftKey = VUndefined ∨ getField l leftKey = VNull →
       normalizeKey (getField l leftKey) = "__NULL__")
  ∧ (∀ r, getField r rightKey = VUndefined ∨ getField r rightKey = VNull →
       normalizeKey (getField r rightKey) = "__NULL__")
  ∧ (∀ l r, l ∈ leftData → r ∈ rightData →
       getField l leftKey = VUndefined ∨ getField l leftKey = VNull →
       getField r rightKey = VUndefined ∨ getField r rightKey = VNull →
       buildMergedRow (Some l) (Some r) leftColumns
         (renamedRightCols leftColumns rightColumns rightKey)
       ∈ data (mergeDatasets leftData rightData leftColumns rightColumns
                 leftKey rightKey joinType)).
Proof.
  intros Hj. split_and!; [done|intros; by apply normalizeKey_nullish..|].
  intros l r Hl Hr Hlk Hrk. apply matched_rows_merged; [done..|].
  by rewrite !normalizeKey_nullish.
Qed.

(** At a concrete input: neither [zip] nor [zap] is a column, both reads
    give [undefined], and the two rows are joined. *)
Lemma undeclared_key_joins_as_null_witness :
  rowOf [("id", VNum 1); ("val", VNum 10)]
  ∈ data (mergeDatasets [rowOf [("id", VNum 1)]] [rowOf [("val", VNum 10)]]
            [col "id" TNumber] [col "val" TNumber] "zip" "zap" Inner).
Proof.
  destruct (undeclared_key_joins_as_null
              [rowOf [("id", VNum 1)]] [rowOf [("val", VNum 10)]]
              [col "id" TNumber] [col "val" TNumber] "zip" "zap" Inner
              ltac:(discriminate)) as (_ & _ & _ & H).
  apply (H (rowOf [("id", VNum 1)]) (rowOf [("val", VNum 10)])).
  - apply list_elem_of_here.
  - apply list_elem_of_here.
  - left. reflexivity.
  - left. reflexivity.
Defined.

End JoinKeysAbsent.

(** ** The merge engine: right rows without a match *)

Section RightRows.
Import DataMerger.

(** What a right or full join appends after the walk over the left rows:
    the right rows whose normalized key is the key of no left row, in their
    order, each merged with no left row.  Two right rows that share a key
    share their fate. *)
Lemma right_full_join_rows leftData rightData leftColumns rightColumns
    leftKey rightKey :
  let renamed := renamedRightCols leftColumns rightColumns rightKey in
  let rest :=
    (λ r, buildMergedRow None (Some r) leftColumns renamed)
      <$> unmatchedRight leftKey rightKey leftData rightData in
  data (mergeDatasets leftData rightData leftColumns rightColumns
          leftKey rightKey Right)
  = data (mergeDatasets leftData rightData leftColumns rightColumns
            leftKey rightKey Inner) ++ rest
  ∧ data (mergeDatasets leftData rightData leftColumns rightColumns
            leftKey rightKey Full)
    = data (mergeDatasets leftData rightData leftColumns rightColumns
              leftKey rightKey Left) ++ rest
  ∧ (∀ r, r ∈ unmatchedRight leftKey rightKey leftData rightData ↔
       r ∈ rightData
       ∧ ∀ l, l ∈ leftData →
           normalizeKey (getField l leftKey)
           ≠ normalizeKey (getField r rightKey)).
Proof.
  intros renamed rest. rewrite !mergeDatasets_join_data by done.
  fold renamed rest. rewrite !bool_decide_true by auto.
  rewrite !bool_decide_false by (intros [?|?]; done).
  rewrite !app_nil_r. split_and!.
  - f_equal.
  - f_equal.
  - intros r. unfold unmatchedRight. rewrite list_elem_of_filter.
    rewrite list_elem_of_fmap. naive_solver.
Qed.

(** Scenario E: a full join of [{id:1}] with [{id:2}] on [id]. *)
Lemma full_join_disjoint_keys :
  data (mergeDatasets [rowOf [("id", VNum 1)]] [rowOf [("id", VNum 2)]]
          [col "id" TNumber] [col "id" TNumber] "id" "id" Full)
  = [rowOf [("id", VNum 1)]; rowOf [("id", VNull)]].
Proof. vm_compute. reflexivity. Qed.

Lemma foldl_insert_lookup_ne {A} (f : A → string) (g : A → value)
    (l : list A) (m : Row) (k : string) :
  k ∉ f <$> l → foldl (λ (row : Row) c, <[f c := g c]> row) m l !! k = m !! k.
Proof.
  revert m. induction l as [|c l IH]; intros m; simpl; [done|].
  intros [? ?]%not_elem_of_cons. rewrite IH by done.
  by rewrite lookup_insert_ne.
Qed.

Lemma foldl_insert_lookup_const {A} (f : A → string) (g : A → value)
    (l : list A) (m : Row) (k : string) (v : value) :
  k ∈ f <$> l → (∀ c, c ∈ l → f c = k → g c = v) →
  foldl (λ (row : Row) c, <[f c := g c]> row) m l !! k = Some v.
Proof.
  revert m. induction l as [|c l IH]; intros m; simpl.
  - by intros ?%elem_of_nil.
  - intros Hin Hg. destruct (decide (k ∈ f <$> l)) as [Hl|Hl].
    + apply IH; [done|]. intros c' ?. apply Hg. by right.
    + rewrite foldl_insert_lookup_ne by done.
      apply elem_of_cons in Hin as [->|?]; [|done].
      rewrite lookup_insert_eq. f_equal. apply Hg; [left|done].
Qed.

(** The field of a left column is [null] in a row merged with no left row,
    as long as no right column is written under the same name. *)
Lemma unmatched_row_left_field (r : Row) leftColumns renamed c :
  c ∈ leftColumns → name c ∉ name <$> renamed →
  buildMergedRow None (Some r) leftColumns renamed !! name c = Some VNull.
Proof.
  intros Hc Hn. unfold buildMergedRow.
  rewrite foldl_insert_lookup_ne by done.
  apply foldl_insert_lookup_const; [|done].
  apply list_elem_of_fmap. by exists c.
Qed.

(** C7, at the failing input.  The left dataset has the columns [a] and
    [a_right], the right one [k] and [a]; the full join on [a] and [k]
    renames the right column [a] to [a_right], a name the left dataset
    already uses.  The right row, which matches no left row, is emitted with
    the left field [a_right] holding the right value 5, not [null] (and the
    left row has lost its own [a_right], 7); the result declares [a_right]
    twice. *)
Theorem unmatched_right_row_left_field_overwritten :
  let res :=
    mergeDatasets
      [rowOf [("a", VNum 1); ("a_right", VNum 7)]]
      [rowOf [("k", VNum 2); ("a", VNum 5)]]
      [col "a" TNumber; col "a_right" TNumber]
      [col "k" TNumber; col "a" TNumber] "a" "k" Full in
  data res = [rowOf [("a", VNum 1); ("a_right", VNull)];
              rowOf [("a", VNull); ("a_right", VNum 5)]]
  ∧ name <$> columns res = ["a"; "a_right"; "a_right"].
Proof. vm_compute. split; reflexivity. Qed.

End RightRows.

(** ** The merge engine: append *)

Section Append.
Import DataMerger.

Lemma normalize_lookup (allColNames : list string) (row : Row) (n : string) :
  normalize allColNames row !! n
  = if decide (n ∈ allColNames)
    then Some (Js.nullish (getField row n) VNull) else None.
Proof.
  unfold normalize.
  induction allColNames as [|x names IH] using rev_ind; simpl.
  - apply lookup_empty.
  - rewrite foldl_app. simpl. rewrite lookup_insert, IH.
    destruct (decide (x = n)) as [->|Hne].
    + rewrite decide_True by set_solver. done.
    + repeat case_decide; set_solver.
Qed.

Lemma setAll_fresh (m : OrdMap.t Column) (cols : list Column) :
  NoDup (OrdMap.keys m ++ (name <$> cols)) →
  foldl (λ m c, OrdMap.set (name c) c m) m cols
  = m ++ ((λ c, (name c, c)) <$> cols).
Proof.
  revert m. induction cols as [|c cols IH]; intros m Hnd; simpl in *.
  - by rewrite app_nil_r.
  - assert (Hc : name c ∉ OrdMap.keys m).
    { apply NoDup_app in Hnd as (_ & Hd & _). intros Hin.
      apply (Hd _ Hin). left. }
    rewrite ordmap_set_fresh by done. rewrite IH.
    + by rewrite <- app_assoc.
    + unfold OrdMap.keys in *. rewrite fmap_app, <- app_assoc. done.
Qed.

Lemma setNew_fresh (m : OrdMap.t Column) (cols : list Column) :
  foldl (λ m c, if OrdMap.has (name c) m then m
                else OrdMap.set (name c) c m) m cols
  = m ++ ((λ c, (name c, c)) <$> freshColumns (OrdMap.keys m) cols).
Proof.
  revert m. induction cols as [|c cols IH]; intros m; simpl.
  - by rewrite app_nil_r.
  - rewrite IH. destruct (OrdMap.has (name c) m) eqn:Hhas.
    + apply ordmap_has_true in Hhas. by rewrite decide_True.
    + assert (Hc : name c ∉ OrdMap.keys m).
      { intros Hin%ordmap_has_true. congruence. }
      rewrite decide_False by done. rewrite ordmap_set_fresh by done.
      unfold OrdMap.keys. rewrite fmap_app, <- app_assoc. done.
Qed.

Lemma unionColumns_values leftColumns rightColumns :
  NoDup (name <$> leftColumns) →
  OrdMap.values (unionColumns leftColumns rightColumns)
  = leftColumns ++ freshColumns (name <$> leftColumns) rightColumns.
Proof.
  intros Hnd. unfold unionColumns. rewrite setNew_fresh.
  rewrite setAll_fresh by done. unfold OrdMap.empty, OrdMap.values, OrdMap.keys.
  simpl. rewrite fmap_app, <- !list_fmap_compose. simpl.
  by rewrite !list_fmap_id.
Qed.


End Append.

(** ** The join-key suggester *)

Section Suggest.
Import JoinKeys.

Lemma append_cons (a : ascii) (s t : string) :
  String.String a s +:+ t = String.String a (s +:+ t).
Proof. reflexivity. Qed.

Lemma append_nil (s : string) : "" +:+ s = s.
Proof. reflexivity. Qed.

Lemma prefix_spec (t s : string) :
  String.prefix t s = true ↔ ∃ post, s = t +:+ post.
Proof.
  revert s. induction t as [|a t IH]; intros s.
  - split; [intros _; by exists s | by destruct s].
  - destruct s as [|b s]; simpl.
    + split; [done | intros [post Hp]; by rewrite append_cons in Hp].
    + destruct (Ascii.ascii_dec a b) as [->|Hne].
      * rewrite IH. split; intros [post Hp]; exists post.
        -- by rewrite append_cons, Hp.
        -- rewrite append_cons in Hp. by injection Hp.
      * split; [done|]. intros [post Hp]. rewrite append_cons in Hp.
        injection Hp. congruence.
Qed.

Lemma includes_spec (s t : string) :
  Js.includes s t = true ↔ isSubstring t s.
Proof.
  unfold isSubstring. induction s as [|a s IH].
  - change (Js.includes "" t) with (String.prefix t "" || false).
    rewrite orb_false_r, prefix_spec. split.
    + intros [post Hp]. by exists "", post.
    + intros ([|b pre] & post & Hp); [by exists post|].
      by rewrite append_cons in Hp.
  - change (Js.includes (String.String a s) t)
      with (String.prefix t (String.String a s) || Js.includes s t).
    rewrite orb_true_iff, prefix_spec, IH. split.
    + intros [[post Hp] | (pre & post & Hp)].
      * by exists "", post.
      * exists (String.String a pre), post. by rewrite append_cons, Hp.
    + intros ([|b pre] & post & Hp).
      * left. by exists post.
      * right. exists pre, post. rewrite append_cons in Hp. by injection Hp.
Qed.

Lemma slice0_prefix (n : nat) (s : string) :
  ∃ post, s = Js.slice0 n s +:+ post.
Proof.
  revert s. induction n as [|n IH]; intros [|a s]; simpl;
    [by exists ""| by eexists | by exists "" |].
  destruct (IH s) as [post Hp]. exists post. by rewrite append_cons, <- Hp.
Qed.

Lemma slice0_short (n : nat) (s : string) :
  (String.length s ≤ n)%nat → Js.slice0 n s = s.
Proof.
  revert s. induction n as [|n IH]; intros [|a s]; simpl; try done; [lia|].
  intros ?. rewrite IH; [done|lia].
Qed.

(** In the third case the right name is longer than three characters too:
    the bound on the length can be read of either name. *)
Lemma shared_prefix_lengths (ln rn : string) :
  ¬ isSubstring rn ln → Js.slice0 3 ln = Js.slice0 3 rn →
  (3 < String.length ln)%nat → (3 < String.length rn)%nat.
Proof.
  intros Hsub Hs Hl. destruct (decide (3 < String.length rn)%nat); [done|].
  exfalso. apply Hsub. rewrite (slice0_short 3 rn) in Hs by lia. subst rn.
  destruct (slice0_prefix 3 ln) as [post Hp]. unfold isSubstring.
  exists "", post. exact Hp.
Qed.

Lemma suggestPair_spec (lc rc : Column) :
  (∀ c, pairConfidence lc rc c ↔
        suggestPair lc rc
        = [ {| leftKey := name lc; rightKey := name rc; confidence := c |} ])
  ∧ ((∀ c, ¬ pairConfidence lc rc c) ↔ suggestPair lc rc = []).
Proof.
  unfold pairConfidence, suggestPair.
  set (ln := normalizeName (name lc)). set (rn := normalizeName (name rc)).
  pose proof (includes_spec ln rn) as H1.
  pose proof (includes_spec rn ln) as H2.
  destruct (decide (ln = rn)) as [Heq|Hne].
  { split; [intros c; split; [naive_solver|intros [= <-]; auto]|].
    split; [intros H; destruct (H 100); auto | done]. }
  destruct (Js.includes ln rn || Js.includes rn ln) eqn:Hinc.
  { apply orb_true_iff in Hinc.
    split; [intros c; split; [naive_solver|intros [= <-]; naive_solver]|].
    split; [intros H; destruct (H 60); naive_solver | done]. }
  apply orb_false_iff in Hinc as [Hi1 Hi2].
  assert (Hns : ¬ (isSubstring rn ln ∨ isSubstring ln rn)).
  { rewrite <- H1, <- H2, Hi1, Hi2. naive_solver. }
  clear H1 H2 Hi1 Hi2.
  destruct (bool_decide (type lc = type rc)
            && bool_decide (Js.slice0 3 ln = Js.slice0 3 rn)
            && bool_decide (3 < String.length ln)%nat) eqn:Hc.
  - apply andb_true_iff in Hc as [[Ht%bool_decide_eq_true
      Hs%bool_decide_eq_true]%andb_true_iff Hl%bool_decide_eq_true].
    split; [intros c; split; [naive_solver|intros [= <-]; naive_solver]|].
    split; [intros H; destruct (H 30); naive_solver | done].
  - split; [intros c; split; [|done]|split; [done|]].
    + intros [[? _]|[(_ & ? & _)|(_ & _ & Ht & Hs & Hl & _)]]; [done..|].
      rewrite !bool_decide_true in Hc by done. done.
    + intros _ c [[? _]|[(_ & ? & _)|(_ & _ & Ht & Hs & Hl & _)]]; [done..|].
      rewrite !bool_decide_true in Hc by done. done.
Qed.

Lemma foldl_append_bind {A B} (f : B → list A) (acc : list A) (l : list B) :
  foldl (λ acc x, acc ++ f x) acc l = acc ++ (l ≫= f).
Proof.
  revert acc. induction l as [|x l IH]; intros acc.
  - simpl. by rewrite app_nil_r.
  - rewrite bind_cons. cbn [foldl]. by rewrite IH, app_assoc.
Qed.

Lemma collectSuggestions_bind leftCols rightCols :
  collectSuggestions leftCols rightCols
  = leftCols ≫= (λ lc, rightCols ≫= suggestPair lc).
Proof.
  unfold collectSuggestions.
  transitivity (foldl (λ acc lc, acc ++ (rightCols ≫= suggestPair lc))
                      [] leftCols).
  - generalize (@nil Suggestion). induction leftCols as [|lc leftCols IH];
      intros acc; simpl; [done|].
    by rewrite foldl_append_bind, IH.
  - by rewrite foldl_append_bind.
Qed.

Lemma suggestPair_confidence lc rc s :
  s ∈ suggestPair lc rc →
  s = {| leftKey := name lc; rightKey := name rc; confidence := confidence s |}
  ∧ (confidence s = 100 ∨ confidence s = 60 ∨ confidence s = 30).
Proof.
  unfold suggestPair.
  repeat (case_decide || destruct (_ || _) || destruct (_ && _));
    intros Hs; try (by apply elem_of_nil in Hs);
    apply list_elem_of_singleton in Hs as ->; simpl; auto.
Qed.

End Suggest.

Section SuggestClaims.
Import JoinKeys.

(** C9.  [suggestJoinKeys] returns, rearranged, what the pairs of a left and
    a right column emit, every pair emitting at most one suggestion, with
    the confidence the rule gives its normalized names: 100 when they are
    equal, else 60 when one occurs in the other, else 30 when the types are
    equal, the first three characters agree and the name is longer than
    three characters (which then holds of both names), and nothing
    otherwise.  So every confidence is 100, 60 or 30.  The result is ordered
    by non-increasing confidence, suggestions of equal confidence staying in
    the order of their pairs.  For [customer_id] and [CustomerID] it is the
    one suggestion of confidence 100. *)
Theorem suggestJoinKeys_confidence leftCols rightCols :
  let res := suggestJoinKeys leftCols rightCols in
  let emitted := leftCols ≫= (λ lc, rightCols ≫= suggestPair lc) in
  res ≡ₚ emitted
  ∧ (∀ lc rc,
       (∀ c, pairConfidence lc rc c ↔
             suggestPair lc rc
             = [ {| leftKey := name lc; rightKey := name rc;
                    confidence := c |} ])
       ∧ ((∀ c, ¬ pairConfidence lc rc c) ↔ suggestPair lc rc = [])
       ∧ (pairConfidence lc rc 30 →
          (3 < String.length (normalizeName (name rc)))%nat))
  ∧ (∀ s, s ∈ res →
       confidence s = 100 ∨ confidence s = 60 ∨ confidence s = 30)
  ∧ StronglySorted (keyGe confidence) res
  ∧ (∀ v, filter (λ s, confidence s = v) res
          = filter (λ s, confidence s = v) emitted)
  ∧ suggestJoinKeys [col "customer_id" TNumber] [col "CustomerID" TNumber]
    = [ {| leftKey := "customer_id"; rightKey := "CustomerID";
           confidence := 100 |} ].
Proof.
  intros res emitted. subst res emitted. unfold suggestJoinKeys.
  change (λ a b, confidence b - confidence a) with (byKeyDesc confidence).
  rewrite collectSuggestions_bind. split_and!.
  - apply sort_Permutation.
  - intros lc rc. destruct (suggestPair_spec lc rc) as [H1 H2].
    split_and!; [done..|].
    intros [[_ ?]|[(_ & _ & ?)|(_ & Hns & _ & Hs & Hl & _)]]; [done..|].
    eapply shared_prefix_lengths; [|exact Hs|exact Hl]. tauto.
  - intros s Hs%elem_of_sort.
    apply list_elem_of_bind in Hs as (lc & Hs & _).
    apply list_elem_of_bind in Hs as (rc & Hs & _).
    by apply suggestPair_confidence in Hs as [_ ?].
  - apply sort_sorted.
  - intros v. apply sort_stable.
  - vm_compute. reflexivity.
Qed.

(** At concrete inputs: [product_code] and [pro_name] share their first
    three characters only. *)
Lemma suggestJoinKeys_confidence_witness :
  (3 < String.length (normalizeName "pro_name"))%nat
  ∧ (confidence {| leftKey := "product_code"; rightKey := "pro_name";
                   confidence := 30 |} = 100
     ∨ confidence {| leftKey := "product_code"; rightKey := "pro_name";
                     confidence := 30 |} = 60
     ∨ confidence {| leftKey := "product_code"; rightKey := "pro_name";
                     confidence := 30 |} = 30).
Proof.
  destruct (suggestJoinKeys_confidence
              [col "product_code" TString] [col "pro_name" TString])
    as (_ & Hpair & Hconf & _).
  split.
  - destruct (Hpair (col "product_code" TString) (col "pro_name" TString))
      as (Hc & _ & Hlen).
    apply Hlen, Hc. reflexivity.
  - apply Hconf. vm_compute. apply list_elem_of_here.
Defined.

End SuggestClaims.

(** ** The theorems at concrete inputs *)

Section Witnesses.

(** Scenario A of the specification: a string and a number column. *)
Lemma recommendCharts_has_table_witness :
  ChartRecommender.tableEntry
  ∈ ChartRecommender.recommendCharts
      [col "Department" TString; col "Revenue" TNumber] None None
  ∧ ChartRecommender.add "TABLE" 40 "Raw data table view"
    = ChartRecommender.tableEntry.
Proof.
  destruct (recommendCharts_has_table
              [col "Department" TString; col "Revenue" TNumber] None None)
    as (_ & Hin & _ & Honly & _).
  split; [exact Hin|].
  apply Honly; [exact Hin | reflexivity].
Defined.

(** Scenario B: with a date, a string and a number column [LINE_SMOOTH] is
    scored 95 and 70, and its entry carries 95. *)
Lemma recommendCharts_dedup_ranked_witness :
  ChartRecommender.score
    (ChartRecommender.add "LINE_SMOOTH" 70 "Trend across categories")
  ≤ ChartRecommender.score
      (ChartRecommender.add "LINE_SMOOTH" 95 "Best for time-series trends").
Proof.
  destruct (recommendCharts_dedup_ranked
              [col "Date" TDate; col "Region" TString; col "Sales" TNumber]
              None None) as (_ & Hmax & _).
  destruct (Hmax (ChartRecommender.add "LINE_SMOOTH" 95
                    "Best for time-series trends")) as [_ Hle].
  - vm_compute. apply list_elem_of_here.
  - apply Hle; [|reflexivity].
    apply (bool_decide_unpack _). vm_compute. exact I.
Defined.

Lemma boolean_columns_ignored_witness :
  ChartRecommender.recommendCharts
    [col "active" TBoolean; col "archived" TBoolean] None None
  = [ChartRecommender.tableEntry]
  ∧ ChartRecommender.recommendCharts
      ([col "Region" TString] ++ col "active" TBoolean
         :: [col "Sales" TNumber]) None None
    = ChartRecommender.recommendCharts
        ([col "Region" TString] ++ [col "Sales" TNumber]) None None.
Proof.
  destruct boolean_columns_ignored as (_ & _ & Hdel & Hall). split.
  - apply Hall. repeat constructor.
  - apply Hdel. reflexivity.
Defined.


End Witnesses.

(** * Further properties of the merge engine, the suggester, the
    recommender and their users *)

Section JoinCounts.
Import DataMerger.

Lemma sum_list_with_add {A} (f g : A → nat) (l : list A) :
  sum_list_with (λ x, f x + g x)%nat l
  = (sum_list_with f l + sum_list_with g l)%nat.
Proof. induction l as [|x l IH]; simpl; lia. Qed.

Lemma sum_list_with_indicator {A} (P : A → Prop) `{!∀ x, Decision (P x)}
    (l : list A) :
  sum_list_with (λ x, if decide (P x) then 1 else 0)%nat l
  = length (filter P l).
Proof.
  induction l as [|x l IH]; [done|].
  rewrite filter_cons. simpl. case_decide; simpl; lia.
Qed.

(** The merged rows, counted by right row instead of by left row. *)
Lemma matches_counted_by_right leftKey rightKey leftData rightData :
  sum_list_with
    (λ l, length (matchesOf rightKey rightData
                    (normalizeKey (getField l leftKey)))) leftData
  = sum_list_with
      (λ r, length (filter (λ l, normalizeKey (getField l leftKey)
                                 = normalizeKey (getField r rightKey))
                           leftData)) rightData.
Proof.
  unfold matchesOf. induction rightData as [|r rightData IH]; simpl.
  - induction leftData as [|l leftData IHl]; simpl in *; [done|lia].
  - rewrite <- IH, <- sum_list_with_indicator, <- sum_list_with_add.
    apply sum_list_with_ext. intros l. rewrite filter_cons.
    repeat case_decide; simpl; congruence.
Qed.

Lemma join_counts_helper leftData rightData leftColumns rightColumns
    leftKey rightKey :
  let matchCount l :=
    length (matchesOf rightKey rightData
              (normalizeKey (getField l leftKey))) in
  length (data (mergeDatasets leftData rightData leftColumns rightColumns
                  leftKey rightKey Inner))
  = sum_list_with matchCount leftData
  ∧ length (data (mergeDatasets leftData rightData leftColumns rightColumns
                    leftKey rightKey Left))
    = sum_list_with (λ l, matchCount l `max` 1)%nat leftData.
Proof.
  intros matchCount. split.
  - rewrite mergeDatasets_join_data by done.
    rewrite bool_decide_false by (intros [?|?]; done).
    rewrite app_nil_r, length_bind_sum. apply sum_list_with_ext.
    intros l. rewrite length_leftRows.
    by rewrite bool_decide_false by (intros [?|?]; done).
  - rewrite mergeDatasets_join_data by done.
    rewrite bool_decide_false by (intros [?|?]; done).
    rewrite app_nil_r, length_bind_sum. apply sum_list_with_ext.
    intros l. rewrite length_leftRows.
    by rewrite bool_decide_true by (by left).
Qed.

(** X1.  A right join has the rows of the inner join and one more row for
    every right row whose normalized key is the key of no left row; so it
    has at least as many rows as the inner join and at most as many as the
    full join.  A left join never has fewer rows than the left dataset, a
    right join never fewer than the right dataset, and an inner join never
    more than the product of the two row counts. *)
Theorem right_join_row_counts leftData rightData leftColumns rightColumns
    leftKey rightKey :
  let rows joinType :=
    length (data (mergeDatasets leftData rightData leftColumns rightColumns
                    leftKey rightKey joinType)) in
  (rows Right
   = rows Inner + length (unmatchedRight leftKey rightKey leftData rightData)
   ∧ rows Inner ≤ rows Right ≤ rows Full
   ∧ length leftData ≤ rows Left
   ∧ length rightData ≤ rows Right
   ∧ rows Inner ≤ length leftData * length rightData)%nat.
Proof.
  intros rows.
  destruct (right_full_join_rows leftData rightData leftColumns rightColumns
              leftKey rightKey) as (HR & HF & _).
  destruct (join_counts_helper leftData rightData leftColumns rightColumns
              leftKey rightKey) as (HI & HL).
  fold (rows Inner) in HI. fold (rows Left) in HL.
  assert (HR' : (rows Right = rows Inner
    + length (unmatchedRight leftKey rightKey leftData rightData))%nat).
  { unfold rows. by rewrite HR, length_app, length_fmap. }
  assert (HF' : (rows Full = rows Left
    + length (unmatchedRight leftKey rightKey leftData rightData))%nat).
  { unfold rows. by rewrite HF, length_app, length_fmap. }
  assert (HIL : (rows Inner ≤ rows Left)%nat).
  { rewrite HI, HL. apply sum_list_with_le. intros l. lia. }
  split_and!; [done|lia|lia| | |].
  - rewrite HL. clear. induction leftData as [|l leftData IH]; simpl; lia.
  - rewrite HR', HI, matches_counted_by_right. unfold unmatchedRight.
    clear. induction rightData as [|r rightData IH]; simpl; [lia|].
    rewrite filter_cons.
    destruct (decide (normalizeKey (getField r rightKey)
                      ∈ (λ l, normalizeKey (getField l leftKey)) <$> leftData))
      as [Hr|Hr]; [rewrite decide_False by tauto
                  |rewrite decide_True by done; simpl; lia].
    assert (0 < length (filter (λ l, normalizeKey (getField l leftKey)
                                    = normalizeKey (getField r rightKey))
                          leftData))%nat; [|lia].
    apply list_elem_of_fmap in Hr as (l & Hl & Hin).
    assert (Hf : l ∈ filter (λ l, normalizeKey (getField l leftKey)
                                  = normalizeKey (getField r rightKey))
                          leftData) by (by apply list_elem_of_filter).
    destruct (filter _ leftData); [by apply elem_of_nil in Hf|simpl; lia].
  - rewrite HI. clear. induction leftData as [|l leftData IH]; simpl; [lia|].
    pose proof (length_filter
      (λ r, normalizeKey (getField r rightKey)
            = normalizeKey (getField l leftKey)) rightData).
    unfold matchesOf in *. lia.
Qed.

End JoinCounts.
Section JoinEdges.
Import DataMerger.

(** X2.  Joins with an empty side.  With no left rows an inner or left
    join is empty, and a right or full join has every right row, in order,
    merged with no left row.  With no right rows an inner or right join is
    empty, and a left or full join has every left row, in order, merged with
    no right row. *)
Theorem join_with_an_empty_side leftData rightData leftColumns rightColumns
    leftKey rightKey joinType :
  joinType ≠ Append →
  let renamed := renamedRightCols leftColumns rightColumns rightKey in
  data (mergeDatasets [] rightData leftColumns rightColumns
          leftKey rightKey joinType)
  = (if bool_decide (joinType = Right ∨ joinType = Full)
     then (λ r, buildMergedRow None (Some r) leftColumns renamed)
            <$> rightData
     else [])
  ∧ data (mergeDatasets leftData [] leftColumns rightColumns
            leftKey rightKey joinType)
    = (if bool_decide (joinType = Left ∨ joinType = Full)
       then (λ l, buildMergedRow (Some l) None leftColumns renamed)
              <$> leftData
       else []).
Proof.
  intros Hj renamed. rewrite !mergeDatasets_join_data by done.
  fold renamed. split.
  - simpl. case_bool_decide; [|done]. f_equal. unfold unmatchedRight.
    induction rightData as [|r rightData IH]; [done|].
    rewrite filter_cons, decide_True by apply not_elem_of_nil.
    by rewrite IH.
  - unfold unmatchedRight. rewrite filter_nil, fmap_nil.
    assert (H : ∀ A (b : bool) (l : list A), l ++ (if b then [] else []) = l).
    { intros A [] l; apply app_nil_r. }
    rewrite H. clear H.
    unfold leftRows, matchesOf.
    destruct (bool_decide (joinType = Left ∨ joinType = Full));
      induction leftData as [|l leftData IH]; simpl in *; done.
Qed.

Lemma join_with_an_empty_side_witness :
  data (mergeDatasets [] [rowOf [("id", VNum 2); ("val", VNum 7)]]
          [col "id" TNumber; col "name" TString]
          [col "id" TNumber; col "val" TNumber] "id" "id" Right)
  = [rowOf [("id", VNull); ("name", VNull); ("val", VNum 7)]].
Proof.
  destruct (join_with_an_empty_side []
              [rowOf [("id", VNum 2); ("val", VNum 7)]]
              [col "id" TNumber; col "name" TString]
              [col "id" TNumber; col "val" TNumber] "id" "id" Right
              ltac:(discriminate)) as [H _].
  exact H.
Defined.

End JoinEdges.
Section MergedRows.
Import DataMerger.



Lemma nullish_defined (v : value) : Js.nullish v VNull ≠ VUndefined.
Proof. by destruct v. Qed.





End MergedRows.
Section MergedColumns.
Import DataMerger.

Lemma NoDup_fmap_eq {A B} (f : A → B) (l : list A) (x y : A) :
  NoDup (f <$> l) → x ∈ l → y ∈ l → f x = f y → x = y.
Proof.
  induction l as [|z l IH]; simpl; [by intros _ ?%elem_of_nil|].
  intros [Hz Hl]%NoDup_cons [->|Hx]%elem_of_cons [->|Hy]%elem_of_cons Hf;
    [done| | |by apply IH].
  - exfalso. apply Hz. rewrite Hf. by apply list_elem_of_fmap_2.
  - exfalso. apply Hz. rewrite <- Hf. by apply list_elem_of_fmap_2.
Qed.



Lemma string_length_app (s t : string) :
  String.length (s +:+ t) = (String.length s + String.length t)%nat.
Proof.
  induction s as [|a s IH]; [done|]. rewrite append_cons. simpl. by rewrite IH.
Qed.

Lemma append_inj_r (t s1 s2 : string) : s1 +:+ t = s2 +:+ t → s1 = s2.
Proof.
  revert s2. induction s1 as [|a s1 IH]; intros [|b s2];
    rewrite ?append_nil, ?append_cons; intros H; [done| | |].
  - apply (f_equal String.length) in H. simpl in H.
    rewrite string_length_app in H. lia.
  - apply (f_equal String.length) in H. simpl in H.
    rewrite string_length_app in H. lia.
  - injection H as -> H. f_equal. by apply IH.
Qed.

(** X5.  The columns of a keyed join have distinct names provided each
    input has distinct column names and, for every name the two inputs share
    (the right key apart), the name with [_right] appended is a column name
    of neither input. *)
Theorem join_column_names_distinct leftData rightData leftColumns
    rightColumns leftKey rightKey joinType :
  joinType ≠ Append →
  NoDup (name <$> leftColumns) →
  NoDup (name <$> rightColumns) →
  (∀ c, c ∈ leftColumns →
        name c ∈ name <$> rightColumns → name c ≠ rightKey →
        name c +:+ "_right" ∉ name <$> (leftColumns ++ rightColumns)) →
  NoDup (name <$> columns (mergeDatasets leftData rightData leftColumns
                             rightColumns leftKey rightKey joinType)).
Proof.
  intros Hj HL HR Hfree. unfold mergeDatasets. rewrite decide_False by done.
  cbn [columns]. unfold renamedRightCols.
  set (L := list_to_set (name <$> leftColumns) : gset string).
  assert (HLin : ∀ n, n ∈ L ↔ n ∈ name <$> leftColumns).
  { intros n. unfold L. by rewrite elem_of_list_to_set. }
  assert (Hsuf : ∀ c, c ∈ rightColumns → name c ≠ rightKey → name c ∈ L →
    (name c +:+ "_right" ∉ name <$> leftColumns)
    ∧ (name c +:+ "_right" ∉ name <$> rightColumns)).
  { intros c Hc Hk Hn. apply HLin in Hn.
    apply list_elem_of_fmap in Hn as (c' & Hn & Hc').
    specialize (Hfree c' Hc'). rewrite <- Hn in Hfree.
    rewrite fmap_app, elem_of_app in Hfree.
    split; intros ?; apply Hfree; auto; by apply list_elem_of_fmap_2. }
  rewrite fmap_app. apply NoDup_app. split_and!; [done| |].
  - intros n Hn ([n' t o] & -> & (c & Hc' & Hc)%list_elem_of_fmap)%list_elem_of_fmap.
    apply list_elem_of_filter in Hc as [Hk Hc]. revert Hc'.
    unfold renameRight. case_decide as Hin; intros [= -> -> ->]; simpl in Hn.
    + destruct (Hsuf c Hc Hk Hin) as [H1 _]. by apply H1.
    + by apply Hin, HLin.
  - rewrite <- list_fmap_compose. apply NoDup_fmap_2_strong.
    + intros c1 c2 [Hk1 Hc1]%list_elem_of_filter [Hk2 Hc2]%list_elem_of_filter.
      unfold compose, renameRight. repeat case_decide; simpl; intros Hn.
      * apply append_inj_r in Hn. by apply (NoDup_fmap_eq name rightColumns).
      * exfalso. destruct (Hsuf c1 Hc1) as [_ H2]; [done..|]. apply H2.
        rewrite Hn. by apply list_elem_of_fmap_2.
      * exfalso. destruct (Hsuf c2 Hc2) as [_ H2]; [done..|]. apply H2.
        rewrite <- Hn. by apply list_elem_of_fmap_2.
      * by apply (NoDup_fmap_eq name rightColumns).
    + apply NoDup_filter. by apply (NoDup_fmap_1 name).
Qed.

Lemma join_column_names_distinct_witness :
  NoDup (name <$> columns
           (mergeDatasets [] []
              [col "id" TNumber; col "qty" TNumber]
              [col "id" TNumber; col "qty" TNumber; col "price" TNumber]
              "id" "id" Inner)).
Proof.
  apply join_column_names_distinct; [discriminate| | |].
  - apply (bool_decide_unpack _). vm_compute. exact I.
  - apply (bool_decide_unpack _). vm_compute. exact I.
  - intros c [->|[->|Hc%elem_of_nil]%elem_of_cons]%elem_of_cons _ _;
      [| |done]; apply (bool_decide_unpack _); vm_compute; exact I.
Defined.

End MergedColumns.
Section NullKey.
Import DataMerger.

Lemma lowerChar_not_upper_N (c : ascii) : Js.lowerChar c ≠ "N"%char.
Proof. destruct c as [[] [] [] [] [] [] [] []]; vm_compute; discriminate. Qed.

Lemma toLowerCase_not_sentinel (s : string) : Js.toLowerCase s ≠ "__NULL__".
Proof.
  destruct s as [|a [|b [|c s]]]; simpl; try discriminate.
  intros H. injection H as _ _ Hc _. by apply lowerChar_not_upper_N in Hc.
Qed.

(** X6.  The sentinel [__NULL__] is the normalized key of [null] and
    [undefined] only (a string key is put in lower case, the sentinel is
    not), so an absent key matches the right rows whose key is absent and
    no other. *)
Theorem null_key_matches_only_null :
  (∀ v, normalizeKey v = "__NULL__" ↔ v = VNull ∨ v = VUndefined)
  ∧ (∀ rightKey rightData,
       matchesOf rightKey rightData "__NULL__"
       = filter (λ r, getField r rightKey = VNull
                      ∨ getField r rightKey = VUndefined) rightData).
Proof.
  assert (H : ∀ v, normalizeKey v = "__NULL__" ↔ v = VNull ∨ v = VUndefined).
  { intros v. split; [|by intros [-> | ->]].
    destruct v; simpl; auto; intros Hs;
      by apply toLowerCase_not_sentinel in Hs. }
  split; [done|]. intros rk rd. unfold matchesOf.
  apply filter_ext_elem_of. intros r _. apply H.
Qed.

Lemma null_key_matches_only_null_witness :
  VUndefined = VNull ∨ VUndefined = VUndefined.
Proof.
  destruct null_key_matches_only_null as [H _]. apply H. reflexivity.
Defined.

End NullKey.
Section KeyNormalization.
Import DataMerger.

Lemma lowerChar_idem (c : ascii) : Js.lowerChar (Js.lowerChar c) = Js.lowerChar c.
Proof. destruct c as [[] [] [] [] [] [] [] []]; reflexivity. Qed.

Lemma is_space_lowerChar (c : ascii) :
  Ascii.is_space (Js.lowerChar c) = Ascii.is_space c.
Proof. destruct c as [[] [] [] [] [] [] [] []]; reflexivity. Qed.

Lemma string_app_assoc (s t u : string) : (s +:+ t) +:+ u = s +:+ (t +:+ u).
Proof.
  induction s as [|a s IH]; [done|]. rewrite !append_cons. by rewrite IH.
Qed.

Lemma string_app_nil_r (s : string) : s +:+ "" = s.
Proof. induction s as [|a s IH]; [done|]. rewrite append_cons. by rewrite IH. Qed.

Lemma rev_app_spec (s acc : string) :
  String.rev_app s acc = String.rev s +:+ acc.
Proof.
  unfold String.rev. revert acc. induction s as [|a s IH]; intros acc; simpl.
  - done.
  - rewrite (IH (String.String a acc)), (IH (String.String a "")).
    by rewrite string_app_assoc.
Qed.

Lemma rev_cons (a : ascii) (s : string) :
  String.rev (String.String a s) = String.rev s +:+ String.String a "".
Proof. unfold String.rev at 1. simpl. apply rev_app_spec. Qed.

Lemma rev_app_distr (s t : string) :
  String.rev (s +:+ t) = String.rev t +:+ String.rev s.
Proof.
  induction s as [|a s IH].
  - by rewrite append_nil, string_app_nil_r.
  - by rewrite append_cons, !rev_cons, IH, string_app_assoc.
Qed.

Lemma rev_involutive (s : string) : String.rev (String.rev s) = s.
Proof.
  induction s as [|a s IH]; [done|].
  by rewrite rev_cons, rev_app_distr, IH.
Qed.

Lemma toLowerCase_app (s t : string) :
  Js.toLowerCase (s +:+ t) = Js.toLowerCase s +:+ Js.toLowerCase t.
Proof.
  induction s as [|a s IH]; [done|].
  rewrite ?append_cons. simpl. by rewrite IH, append_cons.
Qed.

Lemma toLowerCase_idem (s : string) :
  Js.toLowerCase (Js.toLowerCase s) = Js.toLowerCase s.
Proof.
  induction s as [|a s IH]; [done|]. simpl. by rewrite lowerChar_idem, IH.
Qed.

Lemma toLowerCase_rev (s : string) :
  Js.toLowerCase (String.rev s) = String.rev (Js.toLowerCase s).
Proof.
  induction s as [|a s IH]; [done|]. simpl.
  by rewrite !rev_cons, toLowerCase_app, IH.
Qed.

Lemma trimStart_toLowerCase (s : string) :
  Js.trimStart (Js.toLowerCase s) = Js.toLowerCase (Js.trimStart s).
Proof.
  induction s as [|a s IH]; [done|]. simpl. rewrite is_space_lowerChar.
  by destruct (Ascii.is_space a).
Qed.

Lemma trim_toLowerCase (s : string) :
  Js.trim (Js.toLowerCase s) = Js.toLowerCase (Js.trim s).
Proof.
  unfold Js.trim, Js.trimEnd.
  rewrite trimStart_toLowerCase, !toLowerCase_rev.
  by rewrite <- (trimStart_toLowerCase (String.rev (Js.trimStart s))),
    toLowerCase_rev.
Qed.

Lemma blank_rev (s : string) : blank (String.rev s) = blank s.
Proof.
  assert (Happ : ∀ s t, blank (s +:+ t) = blank s && blank t).
  { clear. induction s as [|a s IH]; intros t; [done|].
    rewrite ?append_cons. simpl. by rewrite IH, andb_assoc. }
  induction s as [|a s IH]; [done|].
  rewrite rev_cons, Happ, IH. simpl. rewrite andb_true_r. apply andb_comm.
Qed.

Lemma trimStart_blank_app (ws s : string) :
  blank ws = true → Js.trimStart (ws +:+ s) = Js.trimStart s.
Proof.
  induction ws as [|a ws IH]; [done|]. simpl.
  intros [Ha Hws]%andb_true_iff. rewrite ?append_cons. simpl. rewrite Ha. auto.
Qed.

Lemma trimStart_blank (ws : string) : blank ws = true → Js.trimStart ws = "".
Proof.
  intros H. rewrite <- (string_app_nil_r ws). by rewrite trimStart_blank_app.
Qed.

Lemma trimEnd_app_blank (s ws : string) :
  blank ws = true → Js.trimEnd (s +:+ ws) = Js.trimEnd s.
Proof.
  intros H. unfold Js.trimEnd.
  by rewrite rev_app_distr, trimStart_blank_app by (by rewrite blank_rev).
Qed.

Lemma trimStart_app_r (s ws : string) :
  blank ws = true →
  Js.trimStart (s +:+ ws)
  = if blank s then "" else Js.trimStart s +:+ ws.
Proof.
  intros H. induction s as [|a s IH]; simpl.
  - rewrite append_nil. by apply trimStart_blank.
  - rewrite ?append_cons. simpl. destruct (Ascii.is_space a); simpl; [done|].
    by rewrite ?append_cons.
Qed.

Lemma trim_padding (ws1 s ws2 : string) :
  blank ws1 = true → blank ws2 = true →
  Js.trim (ws1 +:+ s +:+ ws2) = Js.trim s.
Proof.
  intros H1 H2. unfold Js.trim.
  rewrite trimStart_blank_app, trimStart_app_r by done.
  destruct (blank s) eqn:Hs.
  - by rewrite (trimStart_blank s).
  - by apply trimEnd_app_blank.
Qed.

(** X7.  The normalized key of a string depends on its lower-case form
    only, and white space around the string does not change it. *)
Theorem key_ignores_case_and_padding :
  (∀ s s', Js.toLowerCase s = Js.toLowerCase s' →
           normalizeKey (VStr s) = normalizeKey (VStr s'))
  ∧ (∀ ws1 s ws2, blank ws1 = true → blank ws2 = true →
       normalizeKey (VStr (ws1 +:+ s +:+ ws2)) = normalizeKey (VStr s)).
Proof.
  split.
  - intros s s' H. simpl. by rewrite <- !trim_toLowerCase, H.
  - intros ws1 s ws2 H1 H2. simpl. by rewrite trim_padding.
Qed.

Lemma key_ignores_case_and_padding_witness :
  normalizeKey (VStr ("  " +:+ "New York" +:+ " "))
  = normalizeKey (VStr "new york")
  ∧ normalizeKey (VStr "NEW YORK") = normalizeKey (VStr "new york").
Proof.
  destruct key_ignores_case_and_padding as [Hcase Hpad]. split.
  - rewrite (Hpad "  " "New York" " "); [|reflexivity..].
    apply Hcase. reflexivity.
  - apply Hcase. reflexivity.
Defined.

(** A string that is empty or begins with a character that is no white
    space is left alone by [trimStart]. *)
Lemma trimStart_split (s : string) :
  ∃ ws, blank ws = true ∧ s = ws +:+ Js.trimStart s.
Proof.
  induction s as [|a s (ws & Hws & IH)]; [by exists ""|]. simpl.
  destruct (Ascii.is_space a) eqn:Ha.
  - exists (String.String a ws). simpl. rewrite Ha, Hws, append_cons.
    by rewrite <- IH.
  - by exists "".
Qed.

Lemma trimStart_idem (s : string) :
  Js.trimStart (Js.trimStart s) = Js.trimStart s.
Proof.
  induction s as [|a s IH]; [done|]. simpl.
  destruct (Ascii.is_space a) eqn:Ha; [done|]. simpl. by rewrite Ha.
Qed.

Lemma trimEnd_idem (s : string) : Js.trimEnd (Js.trimEnd s) = Js.trimEnd s.
Proof. unfold Js.trimEnd. by rewrite rev_involutive, trimStart_idem. Qed.

Lemma trimEnd_split (s : string) :
  ∃ ws, blank ws = true ∧ s = Js.trimEnd s +:+ ws.
Proof.
  destruct (trimStart_split (String.rev s)) as (ws & Hws & Hs).
  exists (String.rev ws). split; [by rewrite blank_rev|].
  unfold Js.trimEnd. rewrite <- rev_app_distr, <- Hs. by rewrite rev_involutive.
Qed.

Lemma trimStart_head (t u : string) (a : ascii) :
  Js.trimStart t = String.String a u → Ascii.is_space a = false.
Proof.
  induction t as [|c t IH]; simpl; [done|].
  destruct (Ascii.is_space c) eqn:Hc; [done|]. by intros [= <- _].
Qed.

Lemma trimStart_trimEnd (s : string) :
  Js.trimStart (Js.trimEnd (Js.trimStart s)) = Js.trimEnd (Js.trimStart s).
Proof.
  destruct (trimEnd_split (Js.trimStart s)) as (ws & Hws & Hs).
  destruct (Js.trimEnd (Js.trimStart s)) as [|a u]; [done|].
  apply trimStart_head in Hs. simpl. by rewrite Hs.
Qed.

Lemma trim_idem (s : string) : Js.trim (Js.trim s) = Js.trim s.
Proof. unfold Js.trim. by rewrite trimStart_trimEnd, trimEnd_idem. Qed.

(** X8.  Normalizing is idempotent: the normalized key of a value that is
    neither [null] nor [undefined], taken as a string key, is its own
    normalized key. *)
Theorem normalizeKey_idempotent (v : value) :
  v ≠ VNull → v ≠ VUndefined →
  normalizeKey (VStr (normalizeKey v)) = normalizeKey v.
Proof.
  intros Hn Hu.
  assert (H : ∀ s, Js.toLowerCase (Js.trim (Js.toLowerCase (Js.trim s)))
                   = Js.toLowerCase (Js.trim s)).
  { intros s. by rewrite trim_toLowerCase, trim_idem, toLowerCase_idem. }
  destruct v; try done; apply H.
Qed.

Lemma normalizeKey_idempotent_witness :
  normalizeKey (VStr (normalizeKey (VStr "  Ada LOVELACE ")))
  = normalizeKey (VStr "  Ada LOVELACE ").
Proof. apply normalizeKey_idempotent; discriminate. Defined.

End KeyNormalization.
Section AppendInvariants.
Import DataMerger.

Lemma ordmap_set_elem {V} (k k' : string) (v v' : V) (m : OrdMap.t V) :
  (k', v') ∈ OrdMap.set k v m → (k', v') ∈ m ∨ (k' = k ∧ v' = v).
Proof.
  induction m as [|[k0 v0] m IH]; simpl.
  - intros ?%list_elem_of_singleton. naive_solver.
  - case_decide; rewrite !elem_of_cons; naive_solver.
Qed.

Lemma ordmap_keys_set {V} (k k' : string) (v : V) (m : OrdMap.t V) :
  k' ∈ OrdMap.keys (OrdMap.set k v m) ↔ k' = k ∨ k' ∈ OrdMap.keys m.
Proof.
  destruct (decide (k ∈ OrdMap.keys m)) as [Hin|Hnin].
  - rewrite ordmap_keys_set_present by done. naive_solver.
  - rewrite ordmap_set_fresh by done. unfold OrdMap.keys.
    rewrite fmap_app, elem_of_app. simpl. rewrite list_elem_of_singleton.
    naive_solver.
Qed.

Lemma colMapInv_set seen m c :
  colMapInv seen m → colMapInv (seen ++ [c]) (OrdMap.set (name c) c m).
Proof.
  intros (Hnd & Hent & Hkeys). split_and!.
  - by apply ordmap_keys_set_NoDup.
  - intros k c' [Hin|[-> ->]]%ordmap_set_elem.
    + destruct (Hent _ _ Hin). split; [done|]. apply elem_of_app. auto.
    + split; [done|]. apply elem_of_app. right. apply list_elem_of_here.
  - intros n. rewrite ordmap_keys_set, Hkeys, fmap_app, elem_of_app. simpl.
    rewrite list_elem_of_singleton. naive_solver.
Qed.

Lemma colMapInv_skip seen m c :
  name c ∈ OrdMap.keys m → colMapInv seen m → colMapInv (seen ++ [c]) m.
Proof.
  intros Hc (Hnd & Hent & Hkeys). split_and!; [done| |].
  - intros k c' Hin. destruct (Hent _ _ Hin). split; [done|].
    apply elem_of_app. auto.
  - intros n. rewrite Hkeys, fmap_app, elem_of_app. simpl.
    rewrite list_elem_of_singleton. apply Hkeys in Hc. naive_solver.
Qed.

Lemma unionColumns_inv leftColumns rightColumns :
  colMapInv (leftColumns ++ rightColumns)
            (unionColumns leftColumns rightColumns).
Proof.
  unfold unionColumns.
  assert (H1 : colMapInv leftColumns
    (foldl (λ m c, OrdMap.set (name c) c m) OrdMap.empty leftColumns)).
  { induction leftColumns as [|c l IH] using rev_ind.
    - split_and!; [constructor|by intros ?? ?%elem_of_nil|done].
    - rewrite foldl_app. simpl. by apply colMapInv_set. }
  revert H1. generalize (foldl (λ m c, OrdMap.set (name c) c m)
                               OrdMap.empty leftColumns).
  induction rightColumns as [|c r IH] using rev_ind; intros m Hm.
  - by rewrite app_nil_r.
  - rewrite foldl_app, app_assoc. simpl.
    destruct (OrdMap.has (name c) _) eqn:Hhas.
    + apply colMapInv_skip; [by apply ordmap_has_true|by apply IH].
    + apply colMapInv_set. by apply IH.
Qed.

Lemma unionColumns_names leftColumns rightColumns :
  name <$> OrdMap.values (unionColumns leftColumns rightColumns)
  = OrdMap.keys (unionColumns leftColumns rightColumns).
Proof.
  destruct (unionColumns_inv leftColumns rightColumns) as (_ & Hent & _).
  unfold OrdMap.values, OrdMap.keys. rewrite <- list_fmap_compose.
  apply Forall_fmap_ext, Forall_forall. intros [k c] Hin. simpl.
  by destruct (Hent _ _ Hin).
Qed.

(** X9.  Whatever the inputs, also with repeated names, the columns of an
    append have distinct names, each of them is a column of an input, and
    their names are the names of the left columns and of the right
    columns. *)
Theorem append_columns_are_a_union leftData rightData leftColumns
    rightColumns :
  let res := appendDatasets leftData rightData leftColumns rightColumns in
  NoDup (name <$> columns res)
  ∧ (∀ c, c ∈ columns res → c ∈ leftColumns ++ rightColumns)
  ∧ (∀ n, n ∈ name <$> columns res
          ↔ n ∈ name <$> leftColumns ∨ n ∈ name <$> rightColumns).
Proof.
  intros res. subst res. unfold appendDatasets. cbn [columns].
  destruct (unionColumns_inv leftColumns rightColumns)
    as (Hnd & Hent & Hkeys).
  pose proof (unionColumns_names leftColumns rightColumns) as Hk.
  set (m := unionColumns leftColumns rightColumns) in *.
  split_and!.
  - by rewrite Hk.
  - intros c ([k c'] & -> & Hin)%list_elem_of_fmap. simpl.
    by destruct (Hent _ _ Hin).
  - intros n. rewrite Hk, Hkeys, fmap_app, elem_of_app. done.
Qed.

Lemma append_columns_are_a_union_witness :
  col "a" TString ∈ [col "a" TNumber; col "a" TString] ++ [col "a" TDate].
Proof.
  destruct (append_columns_are_a_union [] []
              [col "a" TNumber; col "a" TString] [col "a" TDate])
    as (_ & H & _).
  apply H. vm_compute. apply list_elem_of_here.
Defined.

End AppendInvariants.
Section AppendIdentity.
Import DataMerger.

Lemma nullish_idem (v : value) :
  Js.nullish (Js.nullish v VNull) VNull = Js.nullish v VNull.
Proof. by destruct v. Qed.

Lemma normalize_conforming (names : list string) (row : Row) :
  (∀ n, is_Some (row !! n) ↔ n ∈ names) →
  (∀ n, row !! n ≠ Some VUndefined) →
  normalize names row = row.
Proof.
  intros Hdom Hdef. apply map_eq. intros n. rewrite normalize_lookup.
  case_decide as Hn.
  - apply Hdom in Hn as [v Hv]. unfold getField. rewrite Hv. simpl.
    destruct v; try done. by destruct (Hdef n).
  - destruct (row !! n) eqn:Hr; [|done]. destruct Hn. apply Hdom. eauto.
Qed.

Lemma freshColumns_unseen (cs : list Column) (seen : list string) :
  NoDup (name <$> cs) →
  (∀ c, c ∈ cs → name c ∉ seen) →
  freshColumns seen cs = cs.
Proof.
  revert seen. induction cs as [|c cs IH]; intros seen Hnd Hs; [done|]. simpl.
  apply NoDup_cons in Hnd as [Hc Hnd].
  rewrite decide_False by (apply Hs; left). f_equal.
  apply IH; [done|].
  intros c' Hc' [Hin|Heq%list_elem_of_singleton]%elem_of_app.
  - by apply (Hs c'); [right|done].
  - apply Hc. rewrite <- Heq. by apply list_elem_of_fmap_2.
Qed.

Lemma unionColumns_alone_l (cols : list Column) :
  NoDup (name <$> cols) →
  OrdMap.values (unionColumns cols []) = cols.
Proof. intros Hnd. rewrite unionColumns_values by done. apply app_nil_r. Qed.

Lemma unionColumns_alone_r (cols : list Column) :
  NoDup (name <$> cols) →
  OrdMap.values (unionColumns [] cols) = cols.
Proof.
  intros Hnd. rewrite unionColumns_values by constructor. simpl.
  apply freshColumns_unseen; [done|]. intros ? _. apply not_elem_of_nil.
Qed.

Lemma normalize_rows_conforming (names : list string) (rows : list Row) :
  (∀ row n, row ∈ rows →
     (is_Some (row !! n) ↔ n ∈ names) ∧ row !! n ≠ Some VUndefined) →
  normalize names <$> rows = rows.
Proof.
  intros Hrows. induction rows as [|row rows IH]; [done|].
  rewrite fmap_cons, IH by (intros; apply Hrows; by right).
  f_equal. apply normalize_conforming; intros n; apply Hrows; left.
Qed.

(** X10.  Appending an empty dataset on either side gives the dataset
    back, rows and columns, when its column names are distinct and each of
    its rows has a field, not [undefined], for exactly its column names. *)
Theorem append_nothing_is_identity rows cols :
  NoDup (name <$> cols) →
  (∀ row n, row ∈ rows →
     (is_Some (row !! n) ↔ n ∈ name <$> cols)
     ∧ row !! n ≠ Some VUndefined) →
  appendDatasets rows [] cols [] = {| data := rows; columns := cols |}
  ∧ appendDatasets [] rows [] cols = {| data := rows; columns := cols |}.
Proof.
  intros Hnd Hrows. unfold appendDatasets.
  rewrite unionColumns_alone_l, unionColumns_alone_r by done.
  cbn [fmap list_fmap app].
  rewrite normalize_rows_conforming by done.
  by rewrite app_nil_r.
Qed.

Lemma append_nothing_is_identity_witness :
  appendDatasets [rowOf [("id", VNum 1); ("name", VNull)]] []
    [col "id" TNumber; col "name" TString] []
  = {| data := [rowOf [("id", VNum 1); ("name", VNull)]];
       columns := [col "id" TNumber; col "name" TString] |}.
Proof.
  apply append_nothing_is_identity.
  - apply (bool_decide_unpack _). vm_compute. exact I.
  - intros row n ->%list_elem_of_singleton. unfold rowOf. simpl.
    rewrite !elem_of_cons, elem_of_nil.
    destruct (decide (n = "id")) as [->|Hid];
      [|destruct (decide (n = "name")) as [->|Hname]]; simplify_map_eq.
    + split; [split; [auto|eauto]|done].
    + split; [split; [auto|eauto]|done].
    + split; [split; [by intros [? ?]|intuition]|done].
Defined.

(** X11.  The result of an append is normalized: appending nothing to it
    gives it back. *)
Theorem append_result_is_normalized leftData rightData leftColumns
    rightColumns :
  let res := appendDatasets leftData rightData leftColumns rightColumns in
  appendDatasets (data res) [] (columns res) [] = res.
Proof.
  intros res.
  assert (Hnd : NoDup (name <$> columns res)).
  { subst res. unfold appendDatasets. cbn [columns].
    rewrite unionColumns_names. apply unionColumns_inv. }
  assert (Hrows : ∀ row n, row ∈ data res →
            (is_Some (row !! n) ↔ n ∈ name <$> columns res)
            ∧ row !! n ≠ Some VUndefined).
  { intros row n Hrow. subst res. unfold appendDatasets in *.
    cbn [data columns] in *. rewrite <- fmap_app in Hrow.
    apply list_elem_of_fmap in Hrow as (src & -> & _).
    rewrite normalize_lookup. case_decide as Hn.
    - split; [split; [done|eauto]|].
      intros [= Hu]. by apply nullish_defined in Hu.
    - split; [split; [by intros [? ?]|done]|done]. }
  unfold appendDatasets at 1.
  rewrite unionColumns_alone_l by done. cbn [fmap list_fmap app].
  rewrite normalize_rows_conforming by done.
  rewrite app_nil_r. by destruct res.
Qed.

End AppendIdentity.
Section SuggestSymmetry.
Import JoinKeys.

Lemma bind_app_Permutation {A B} (f h : A → list B) (l : list A) :
  l ≫= (λ x, f x ++ h x) ≡ₚ (l ≫= f) ++ (l ≫= h).
Proof.
  induction l as [|x l IH]; [done|]. rewrite !bind_cons, IH.
  rewrite <- !app_assoc. apply Permutation_app_head.
  rewrite !app_assoc. apply Permutation_app_tail, Permutation_app_comm.
Qed.

Lemma bind_swap_Permutation {A B C} (g : A → B → list C)
    (l : list A) (k : list B) :
  l ≫= (λ x, k ≫= g x) ≡ₚ k ≫= (λ y, l ≫= (λ x, g x y)).
Proof.
  induction l as [|x l IH].
  - simpl. induction k as [|y k IHk]; [done|]. by rewrite bind_cons, <- IHk.
  - rewrite bind_cons.
    transitivity ((k ≫= g x) ++ (k ≫= λ y, l ≫= λ x', g x' y)).
    + by rewrite IH.
    + assert (E : k ≫= (λ y, (x :: l) ≫= (λ x', g x' y))
                  = k ≫= (λ y, g x y ++ (l ≫= λ x', g x' y))).
      { apply list_bind_ext; [|done]. intros y. reflexivity. }
      rewrite E. symmetry.
      apply (bind_app_Permutation (g x) (λ y, l ≫= λ x', g x' y) k).
Qed.

Lemma suggestPair_swap (lc rc : Column) :
  suggestPair rc lc = swapSuggestion <$> suggestPair lc rc.
Proof.
  unfold suggestPair.
  set (ln := normalizeName (name lc)). set (rn := normalizeName (name rc)).
  destruct (decide (ln = rn)) as [Heq|Hne].
  { by rewrite decide_True. }
  rewrite decide_False by done. rewrite (orb_comm (Js.includes rn ln)).
  destruct (Js.includes ln rn || Js.includes rn ln) eqn:Hinc; [done|].
  apply orb_false_iff in Hinc as [Hi1 Hi2].
  assert (Hs1 : ¬ isSubstring rn ln).
  { rewrite <- includes_spec. by rewrite Hi1. }
  assert (Hs2 : ¬ isSubstring ln rn).
  { rewrite <- includes_spec. by rewrite Hi2. }
  assert (Hlen : bool_decide (type rc = type lc)
                 && bool_decide (Js.slice0 3 rn = Js.slice0 3 ln)
                 && bool_decide (3 < String.length rn)%nat
                 = bool_decide (type lc = type rc)
                   && bool_decide (Js.slice0 3 ln = Js.slice0 3 rn)
                   && bool_decide (3 < String.length ln)%nat).
  { destruct (decide (type lc = type rc)) as [Ht|Ht];
      [|by rewrite !(bool_decide_false (_ = _ :> ColumnType))].
    destruct (decide (Js.slice0 3 ln = Js.slice0 3 rn)) as [Hs|Hs];
      [|by rewrite !(bool_decide_false (_ = _ :> string)), !andb_false_r].
    rewrite !(bool_decide_true (_ = _ :> ColumnType)) by done.
    rewrite !(bool_decide_true (_ = _ :> string)) by done. simpl.
    apply bool_decide_ext. split; intros Hl.
    - apply (shared_prefix_lengths rn ln); [done|by symmetry|done].
    - by apply (shared_prefix_lengths ln rn). }
  rewrite Hlen.
  by destruct (bool_decide (type lc = type rc)
               && bool_decide (Js.slice0 3 ln = Js.slice0 3 rn)
               && bool_decide (3 < String.length ln)%nat).
Qed.

(** X12.  The suggester is symmetric: a pair of columns taken in the other
    order gets the same confidence, and the suggestions for the datasets
    swapped are the swapped suggestions, up to their order. *)
Theorem suggestJoinKeys_symmetric leftCols rightCols :
  (∀ lc rc, suggestPair rc lc = swapSuggestion <$> suggestPair lc rc)
  ∧ suggestJoinKeys rightCols leftCols
    ≡ₚ swapSuggestion <$> suggestJoinKeys leftCols rightCols.
Proof.
  split; [apply suggestPair_swap|].
  unfold suggestJoinKeys.
  change (λ a b, confidence b - confidence a) with (byKeyDesc confidence).
  rewrite !sort_Permutation, !collectSuggestions_bind.
  rewrite bind_swap_Permutation.
  induction leftCols as [|lc leftCols IH]; [done|].
  rewrite !bind_cons, fmap_app, IH. apply Permutation_app_tail.
  clear. induction rightCols as [|rc rightCols IH]; [done|].
  by rewrite !bind_cons, fmap_app, IH, suggestPair_swap.
Qed.

End SuggestSymmetry.
Section SuggestTop.
Import JoinKeys.

Lemma suggestPair_length lc rc : (length (suggestPair lc rc) ≤ 1)%nat.
Proof.
  unfold suggestPair. repeat (case_decide || case_match); simpl; lia.
Qed.

Lemma suggestPair_exact lc rc :
  normalizeName (name lc) = normalizeName (name rc) →
  suggestPair lc rc
  = [ {| leftKey := name lc; rightKey := name rc; confidence := 100 |} ].
Proof. intros H. unfold suggestPair. by rewrite decide_True. Qed.

Lemma elem_of_suggestJoinKeys leftCols rightCols s :
  s ∈ suggestJoinKeys leftCols rightCols
  ↔ ∃ lc rc, lc ∈ leftCols ∧ rc ∈ rightCols ∧ s ∈ suggestPair lc rc.
Proof.
  unfold suggestJoinKeys.
  change (λ a b, confidence b - confidence a) with (byKeyDesc confidence).
  rewrite elem_of_sort, collectSuggestions_bind, list_elem_of_bind.
  setoid_rewrite list_elem_of_bind. naive_solver.
Qed.

Lemma exact_match_first leftCols rightCols lc rc :
  lc ∈ leftCols → rc ∈ rightCols →
  normalizeName (name lc) = normalizeName (name rc) →
  ∃ s, head (suggestJoinKeys leftCols rightCols) = Some s
       ∧ confidence s = 100.
Proof.
  intros Hl Hr Hn.
  assert (Hin : {| leftKey := name lc; rightKey := name rc;
                   confidence := 100 |}
                ∈ suggestJoinKeys leftCols rightCols).
  { apply elem_of_suggestJoinKeys. exists lc, rc. split_and!; [done..|].
    rewrite suggestPair_exact by done. apply list_elem_of_here. }
  assert (Hle : ∀ s, s ∈ suggestJoinKeys leftCols rightCols →
                     confidence s ≤ 100).
  { intros s (lc' & rc' & _ & _ & Hs)%elem_of_suggestJoinKeys.
    apply suggestPair_confidence in Hs as [_ ?]. lia. }
  pose proof (sort_sorted confidence
                (collectSuggestions leftCols rightCols)) as Hsort.
  change (Js.sort (byKeyDesc confidence)
            (collectSuggestions leftCols rightCols))
    with (suggestJoinKeys leftCols rightCols) in Hsort.
  destruct (suggestJoinKeys leftCols rightCols) as [|s0 l];
    [by apply elem_of_nil in Hin|].
  exists s0. split; [done|]. apply StronglySorted_inv in Hsort as [_ Hall].
  specialize (Hle s0 (list_elem_of_here _ _)).
  apply elem_of_cons in Hin as [<-|Hin]; [done|].
  rewrite Forall_forall in Hall. specialize (Hall _ Hin).
  unfold keyGe in Hall. simpl in Hall. lia.
Qed.

(** X13.  Every suggestion names a left column and a right column of the
    lists given; there are at most as many suggestions as pairs of columns;
    and when some pair has equal normalized names the first suggestion has
    confidence 100. *)
Theorem suggestions_name_declared_columns leftCols rightCols :
  (∀ s, s ∈ suggestJoinKeys leftCols rightCols →
        leftKey s ∈ name <$> leftCols ∧ rightKey s ∈ name <$> rightCols)
  ∧ (length (suggestJoinKeys leftCols rightCols)
     ≤ length leftCols * length rightCols)%nat
  ∧ (∀ lc rc, lc ∈ leftCols → rc ∈ rightCols →
        normalizeName (name lc) = normalizeName (name rc) →
        ∃ s, head (suggestJoinKeys leftCols rightCols) = Some s
             ∧ confidence s = 100).
Proof.
  split_and!.
  - intros s (lc & rc & Hl & Hr & Hs)%elem_of_suggestJoinKeys.
    apply suggestPair_confidence in Hs as [-> _]. simpl.
    split; by apply list_elem_of_fmap_2.
  - unfold suggestJoinKeys.
    change (λ a b, confidence b - confidence a) with (byKeyDesc confidence).
    rewrite sort_Permutation, collectSuggestions_bind, length_bind_sum.
    induction leftCols as [|lc leftCols IH]; simpl; [lia|].
    assert (length (rightCols ≫= suggestPair lc) ≤ length rightCols)%nat;
      [|lia].
    clear. induction rightCols as [|rc rightCols IH]; [simpl; lia|].
    rewrite bind_cons, length_app. pose proof (suggestPair_length lc rc).
    simpl. lia.
  - intros lc rc. apply exact_match_first.
Qed.

Lemma suggestions_name_declared_columns_witness :
  ∃ s, head (suggestJoinKeys
               [col "order_total" TNumber; col "Customer ID" TNumber]
               [col "customer-id" TString; col "total" TNumber])
       = Some s ∧ confidence s = 100.
Proof.
  apply (suggestions_name_declared_columns
           [col "order_total" TNumber; col "Customer ID" TNumber]
           [col "customer-id" TString; col "total" TNumber])
    with (lc := col "Customer ID" TNumber) (rc := col "customer-id" TString).
  - apply list_elem_of_further, list_elem_of_here.
  - apply list_elem_of_here.
  - reflexivity.
Defined.

End SuggestTop.
Section NameNormalization.
Import JoinKeys.

Lemma separator_lowerChar (c : ascii) :
  (Ascii.is_space (Js.lowerChar c) || bool_decide (Js.lowerChar c = "_"%char)
   || bool_decide (Js.lowerChar c = "-"%char))
  = (Ascii.is_space c || bool_decide (c = "_"%char)
     || bool_decide (c = "-"%char)).
Proof. destruct c as [[] [] [] [] [] [] [] []]; reflexivity. Qed.

Lemma stripSeparators_toLowerCase (s : string) :
  Js.stripSeparators (Js.toLowerCase s)
  = Js.toLowerCase (Js.stripSeparators s).
Proof.
  induction s as [|a s IH]; [done|]. simpl. rewrite separator_lowerChar.
  destruct (_ || _ || _); simpl; by rewrite IH.
Qed.

Lemma stripSeparators_idem (s : string) :
  Js.stripSeparators (Js.stripSeparators s) = Js.stripSeparators s.
Proof.
  induction s as [|a s IH]; [done|]. simpl.
  destruct (_ || _ || _) eqn:Ha; [done|]. simpl. by rewrite Ha, IH.
Qed.

Lemma stripSeparators_app (s t : string) :
  Js.stripSeparators (s +:+ t)
  = Js.stripSeparators s +:+ Js.stripSeparators t.
Proof.
  induction s as [|a s IH]; [done|]. rewrite ?append_cons. simpl.
  destruct (_ || _ || _); by rewrite IH.
Qed.

Lemma stripSeparators_separators (s : string) :
  separators s = true → Js.stripSeparators s = "".
Proof.
  induction s as [|a s IH]; [done|]. simpl.
  intros [-> ?]%andb_true_iff. auto.
Qed.

Lemma normalizeName_app (s t : string) :
  normalizeName (s +:+ t) = normalizeName s +:+ normalizeName t.
Proof.
  unfold normalizeName. by rewrite toLowerCase_app, stripSeparators_app.
Qed.

Lemma separators_toLowerCase (s : string) :
  separators (Js.toLowerCase s) = separators s.
Proof.
  induction s as [|a s IH]; [done|]. simpl.
  by rewrite separator_lowerChar, IH.
Qed.

(** X14.  The name normalization is idempotent and ignores case,
    underscores, hyphens and white space wherever they stand; so two column
    names that differ in these only are suggested with confidence 100. *)
Theorem names_compared_without_case_and_separators :
  (∀ n, normalizeName (normalizeName n) = normalizeName n)
  ∧ (∀ n, normalizeName (Js.toLowerCase n) = normalizeName n)
  ∧ (∀ a sep b, separators sep = true →
       normalizeName (a +:+ sep +:+ b) = normalizeName (a +:+ b))
  ∧ (∀ lc rc a sep b,
       separators sep = true →
       name lc = a +:+ sep +:+ b →
       Js.toLowerCase (name rc) = Js.toLowerCase (a +:+ b) →
       suggestPair lc rc
       = [ {| leftKey := name lc; rightKey := name rc;
              confidence := 100 |} ]).
Proof.
  assert (H1 : ∀ n, normalizeName (Js.toLowerCase n) = normalizeName n).
  { intros n. unfold normalizeName. by rewrite toLowerCase_idem. }
  assert (H2 : ∀ a sep b, separators sep = true →
    normalizeName (a +:+ sep +:+ b) = normalizeName (a +:+ b)).
  { intros a sep b Hsep. rewrite !normalizeName_app. f_equal.
    unfold normalizeName at 1.
    rewrite stripSeparators_separators by (by rewrite separators_toLowerCase).
    done. }
  split_and!; [|done|done|].
  - intros n. unfold normalizeName.
    rewrite (stripSeparators_toLowerCase
               (Js.stripSeparators (Js.toLowerCase n))).
    by rewrite stripSeparators_idem, <- stripSeparators_toLowerCase,
      toLowerCase_idem.
  - intros lc rc a sep b Hsep Hl Hr. apply suggestPair_exact.
    rewrite Hl, H2 by done. rewrite <- (H1 (name rc)), Hr. by rewrite H1.
Qed.

Lemma names_compared_without_case_and_separators_witness :
  suggestPair (col "order_id" TNumber) (col "OrderID" TString)
  = [ {| leftKey := "order_id"; rightKey := "OrderID"; confidence := 100 |} ].
Proof.
  destruct names_compared_without_case_and_separators as (_ & _ & _ & H).
  apply (H (col "order_id" TNumber) (col "OrderID" TString)
           "order" "_" "id"); reflexivity.
Defined.

End NameNormalization.

(** ** The recommender: ranking, thresholds and the panel *)

Section Ranking.
Import ChartRecommender.

(** Every threshold of the rules is at most 2 for the categorical count, 3
    for the numeric count and 1 for the date count. *)
Local Ltac count_cases c n d :=
  destruct c as [|[|c]], n as [|[|[|n]]], d as [|d].

Lemma rules_saturate c n d :
  rules c n d = rules (c `min` 2) (n `min` 3) (d `min` 1).
Proof. count_cases c n d; reflexivity. Qed.

(** X15.  The [TABLE] entry is always the last recommendation; every score
    lies between 40 and 95 and every other entry scores at least 50. *)
Theorem table_ranked_last columns dimension measures :
  let res := recommendCharts columns dimension measures in
  last res = Some tableEntry
  ∧ Forall (λ e, 40 ≤ score e ≤ 95 ∧ (e ≠ tableEntry → 50 ≤ score e)) res.
Proof.
  unfold recommendCharts, scores.
  generalize (effectiveCategorical columns dimension)
             (effectiveNumeric columns measures) (effectiveDate columns).
  intros c n d. cbv zeta.
  count_cases c n d; (split; [vm_compute; reflexivity|]);
    apply (bool_decide_unpack _); vm_compute; exact I.
Qed.

Lemma table_ranked_last_witness :
  50 ≤ score (add "KPI_SINGLE" 60 "Display a single key metric").
Proof.
  destruct (table_ranked_last [col "Sales" TNumber] None None) as [_ H].
  rewrite Forall_forall in H.
  apply (H (add "KPI_SINGLE" 60 "Display a single key metric")).
  - vm_compute. apply list_elem_of_here.
  - discriminate.
Defined.

(** X16.  The first recommendation, by the effective counts: [LINE_SMOOTH]
    (95) with a date column and a measure; else [BAR_CLUSTERED] (90) with a
    category and a measure; else [SCATTER] (85) with two measures; else
    [KPI_SINGLE] (60) with one; else [TABLE]. *)
Theorem top_recommendation columns dimension measures :
  let c := effectiveCategorical columns dimension in
  let n := effectiveNumeric columns measures in
  let d := effectiveDate columns in
  head (recommendCharts columns dimension measures)
  = Some (if (1 <=? d)%nat && (1 <=? n)%nat
          then add ChartType.LINE_SMOOTH 95 "Best for time-series trends"
          else if (1 <=? c)%nat && (1 <=? n)%nat
          then add ChartType.BAR_CLUSTERED 90
                   "Compare values across categories"
          else if (2 <=? n)%nat
          then add ChartType.SCATTER 85 "Correlation between two measures"
          else if (1 <=? n)%nat
          then add ChartType.KPI_SINGLE 60 "Display a single key metric"
          else tableEntry).
Proof.
  unfold recommendCharts, scores.
  generalize (effectiveCategorical columns dimension)
             (effectiveNumeric columns measures) (effectiveDate columns).
  intros c n d. cbv zeta.
  count_cases c n d; vm_compute; reflexivity.
Qed.

End Ranking.
Section Counts.

Local Ltac count_cases c n d :=
  destruct c as [|[|c]], n as [|[|[|n]]], d as [|d].

Lemma length_filter_type (t : ColumnType) (columns : list Column) :
  length (filter (λ c, type c = t) columns)
  = length (filter (λ t', t' = t) (type <$> columns)).
Proof.
  induction columns as [|c columns IH]; [done|].
  rewrite fmap_cons, !filter_cons. repeat case_decide; simpl; congruence.
Qed.

(** X17.  The recommendations depend on the columns through their types
    only, and not on their order: two column lists with the same types up to
    rearrangement get the same result. *)
Theorem recommendCharts_by_type_counts columns columns' dimension measures :
  type <$> columns ≡ₚ type <$> columns' →
  ChartRecommender.recommendCharts columns dimension measures
  = ChartRecommender.recommendCharts columns' dimension measures.
Proof.
  intros Hp. unfold ChartRecommender.recommendCharts, ChartRecommender.scores,
    ChartRecommender.effectiveCategorical, ChartRecommender.effectiveNumeric,
    ChartRecommender.effectiveDate, ChartRecommender.numericCols,
    ChartRecommender.categoricalCols, ChartRecommender.dateCols.
  rewrite !length_filter_type. by rewrite Hp.
Qed.

Lemma recommendCharts_by_type_counts_witness :
  ChartRecommender.recommendCharts
    [col "Region" TString; col "Sales" TNumber] None None
  = ChartRecommender.recommendCharts
      [col "Amount" TNumber; col "City" TString] None None.
Proof.
  apply recommendCharts_by_type_counts. apply (perm_swap TNumber TString []).
Defined.

(** X18.  With no measure assigned and no number column the [TABLE] entry
    is the only recommendation, whatever the other columns and the
    dimension. *)
Theorem no_numeric_only_table columns dimension measures :
  ChartRecommender.measureCount measures = 0%nat →
  Forall (λ c, type c ≠ TNumber) columns →
  ChartRecommender.recommendCharts columns dimension measures
  = [ChartRecommender.tableEntry].
Proof.
  intros Hm Hc.
  unfold ChartRecommender.recommendCharts, ChartRecommender.scores.
  assert (ChartRecommender.effectiveNumeric columns measures = 0%nat) as ->.
  { unfold ChartRecommender.effectiveNumeric, ChartRecommender.numericCols.
    rewrite Hm. simpl. induction Hc as [|c columns Hc _ IH]; [done|].
    rewrite filter_cons. by rewrite decide_False. }
  generalize (ChartRecommender.effectiveCategorical columns dimension)
             (ChartRecommender.effectiveDate columns).
  intros c d. destruct c as [|[|c]], d as [|d]; reflexivity.
Qed.

Lemma no_numeric_only_table_witness :
  ChartRecommender.recommendCharts
    [col "Region" TString; col "Day" TDate; col "City" TString]
    (Some "Region") (Some [])
  = [ChartRecommender.tableEntry].
Proof.
  apply no_numeric_only_table; [reflexivity|].
  repeat constructor; discriminate.
Defined.

End Counts.
Section Monotone.

Local Ltac count_cases c n d :=
  destruct c as [|[|c]], n as [|[|[|n]]], d as [|d].

Lemma rules_mono_categorical c n d :
  Forall (λ s, s ∈ ChartRecommender.rules (S c) n d)
         (ChartRecommender.rules c n d).
Proof.
  count_cases c n d; apply (bool_decide_unpack _); vm_compute; exact I.
Qed.

Lemma rules_mono_numeric c n d :
  Forall (λ s, s ∈ ChartRecommender.rules c (S n) d)
         (ChartRecommender.rules c n d).
Proof.
  count_cases c n d; apply (bool_decide_unpack _); vm_compute; exact I.
Qed.

Lemma rules_mono_date c n d :
  Forall (λ s, s ∈ ChartRecommender.rules c n (S d))
         (ChartRecommender.rules c n d).
Proof.
  count_cases c n d; apply (bool_decide_unpack _); vm_compute; exact I.
Qed.

Lemma rules_mono c c' n n' d d' s :
  (c ≤ c')%nat → (n ≤ n')%nat → (d ≤ d')%nat →
  s ∈ ChartRecommender.rules c n d → s ∈ ChartRecommender.rules c' n' d'.
Proof.
  intros Hc Hn Hd Hs.
  assert (H1 : s ∈ ChartRecommender.rules c' n d).
  { induction Hc as [|c' _ IH]; [done|].
    pose proof (rules_mono_categorical c' n d) as Hf.
    rewrite Forall_forall in Hf. by apply Hf. }
  assert (H2 : s ∈ ChartRecommender.rules c' n' d).
  { clear Hs. induction Hn as [|n' _ IH]; [done|].
    pose proof (rules_mono_numeric c' n' d) as Hf.
    rewrite Forall_forall in Hf. by apply Hf. }
  clear Hs H1. induction Hd as [|d' _ IH]; [done|].
  pose proof (rules_mono_date c' n' d') as Hf.
  rewrite Forall_forall in Hf. by apply Hf.
Qed.

Lemma length_filter_insert (P : Column → Prop) `{!∀ c, Decision (P c)}
    (pre post : list Column) (c : Column) :
  (length (filter P (pre ++ post))
   ≤ length (filter P (pre ++ c :: post)))%nat.
Proof.
  rewrite !filter_app, filter_cons, !length_app.
  case_decide; simpl; lia.
Qed.

(** X19.  Adding a column anywhere, the assignment unchanged, removes no
    recommended chart type and lowers no score. *)
Theorem added_column_keeps_types pre post c dimension measures e :
  e ∈ ChartRecommender.recommendCharts (pre ++ post) dimension measures →
  ∃ e', e' ∈ ChartRecommender.recommendCharts (pre ++ c :: post)
               dimension measures
        ∧ ChartRecommender.type e' = ChartRecommender.type e
        ∧ ChartRecommender.score e ≤ ChartRecommender.score e'.
Proof.
  intros He.
  destruct (sorted_dedupe_facts
              (ChartRecommender.scores (pre ++ post) dimension measures))
    as (_ & Hin & _).
  destruct (sorted_dedupe_facts
              (ChartRecommender.scores (pre ++ c :: post) dimension measures))
    as (_ & Hin' & Hall').
  destruct (Hin e He) as [Hs _].
  assert (Hs' : e ∈ ChartRecommender.scores (pre ++ c :: post)
                      dimension measures).
  { revert Hs. unfold ChartRecommender.scores. apply rules_mono.
    - unfold ChartRecommender.effectiveCategorical.
      destruct (ChartRecommender.hasDimension dimension); [done|].
      apply length_filter_insert.
    - unfold ChartRecommender.effectiveNumeric.
      destruct (0 <? ChartRecommender.measureCount measures)%nat; [done|].
      apply length_filter_insert.
    - apply length_filter_insert. }
  destruct (Hall' e Hs') as (e' & He' & Ht). exists e'.
  split_and!; [done..|]. destruct (Hin' e' He') as [_ Hmax]. by apply Hmax.
Qed.

Lemma added_column_keeps_types_witness :
  ∃ e', e' ∈ ChartRecommender.recommendCharts
               ([col "Region" TString] ++ col "Day" TDate
                  :: [col "Sales" TNumber]) None None
        ∧ ChartRecommender.type e' = "LINE_SMOOTH"
        ∧ 70 ≤ ChartRecommender.score e'.
Proof.
  apply (added_column_keeps_types [col "Region" TString]
           [col "Sales" TNumber] (col "Day" TDate) None None
           (ChartRecommender.add "LINE_SMOOTH" 70 "Trend across categories")).
  apply (bool_decide_unpack _). vm_compute. exact I.
Defined.

End Monotone.
Section Shapes.

Local Ltac count_cases c n d :=
  destruct c as [|[|c]], n as [|[|[|n]]], d as [|d].

Lemma heatmap_rule c n d :
  bool_decide
    (Exists (λ e, ChartRecommender.type e = ChartType.HEATMAP)
       (Js.sort (λ a b, ChartRecommender.score b - ChartRecommender.score a)
          (OrdMap.values
             (ChartRecommender.dedupe (ChartRecommender.rules c n d)))))
  = (2 <=? c)%nat && (1 <=? n)%nat.
Proof. count_cases c n d; vm_compute; reflexivity. Qed.

(** X20.  [HEATMAP] is recommended exactly when no dimension is assigned,
    at least two columns are strings and the effective numeric count is at
    least one; with a dimension assigned it never is. *)
Theorem heatmap_needs_two_string_columns columns dimension measures :
  (∃ e, e ∈ ChartRecommender.recommendCharts columns dimension measures
        ∧ ChartRecommender.type e = ChartType.HEATMAP)
  ↔ ChartRecommender.hasDimension dimension = false
    ∧ (2 ≤ length (ChartRecommender.categoricalCols columns))%nat
    ∧ (1 ≤ ChartRecommender.effectiveNumeric columns measures)%nat.
Proof.
  unfold ChartRecommender.recommendCharts, ChartRecommender.scores.
  pose proof (heatmap_rule
    (ChartRecommender.effectiveCategorical columns dimension)
    (ChartRecommender.effectiveNumeric columns measures)
    (ChartRecommender.effectiveDate columns)) as Hr.
  transitivity
    (((2 <=? ChartRecommender.effectiveCategorical columns dimension)%nat
      && (1 <=? ChartRecommender.effectiveNumeric columns measures)%nat)
     = true).
  - rewrite <- Hr, bool_decide_eq_true, Exists_exists. naive_solver.
  - rewrite andb_true_iff, !Nat.leb_le.
    unfold ChartRecommender.effectiveCategorical.
    destruct (ChartRecommender.hasDimension dimension); [|naive_solver].
    split; [lia|]. intros [? _]. done.
Qed.

Lemma heatmap_needs_two_string_columns_witness :
  ∃ e, e ∈ ChartRecommender.recommendCharts
             [col "Region" TString; col "City" TString; col "Sales" TNumber]
             None None
       ∧ ChartRecommender.type e = ChartType.HEATMAP.
Proof.
  apply heatmap_needs_two_string_columns.
  split; [reflexivity|]. split; vm_compute; lia.
Defined.

Lemma numeric_only_rule n :
  bool_decide
    (Forall (λ e, ChartRecommender.type e
                  ∈ [ChartType.SCATTER; ChartType.BUBBLE;
                     ChartType.KPI_SINGLE; ChartType.GAUGE;
                     ChartType.SPARKLINE; ChartType.TABLE])
       (Js.sort (λ a b, ChartRecommender.score b - ChartRecommender.score a)
          (OrdMap.values
             (ChartRecommender.dedupe (ChartRecommender.rules 0 n 0)))))
  = true.
Proof. destruct n as [|[|[|n]]]; vm_compute; reflexivity. Qed.

(** X21.  Without a dimension, a string column or a date column, only
    [SCATTER], [BUBBLE], [KPI_SINGLE], [GAUGE], [SPARKLINE] and [TABLE] can
    be recommended. *)
Theorem numeric_only_types columns dimension measures e :
  ChartRecommender.hasDimension dimension = false →
  Forall (λ c, type c ≠ TString ∧ type c ≠ TDate) columns →
  e ∈ ChartRecommender.recommendCharts columns dimension measures →
  ChartRecommender.type e
  ∈ [ChartType.SCATTER; ChartType.BUBBLE; ChartType.KPI_SINGLE;
     ChartType.GAUGE; ChartType.SPARKLINE; ChartType.TABLE].
Proof.
  intros Hd Hc. unfold ChartRecommender.recommendCharts, ChartRecommender.scores.
  assert (ChartRecommender.effectiveCategorical columns dimension = 0%nat)
    as ->.
  { unfold ChartRecommender.effectiveCategorical,
      ChartRecommender.categoricalCols. rewrite Hd.
    induction Hc as [|c columns [? ?] _ IH]; [done|].
    rewrite filter_cons. by rewrite decide_False. }
  assert (ChartRecommender.effectiveDate columns = 0%nat) as ->.
  { unfold ChartRecommender.effectiveDate, ChartRecommender.dateCols.
    induction Hc as [|c columns [? ?] _ IH]; [done|].
    rewrite filter_cons. by rewrite decide_False. }
  pose proof (numeric_only_rule
    (ChartRecommender.effectiveNumeric columns measures)) as Hr.
  apply bool_decide_eq_true in Hr. rewrite Forall_forall in Hr. apply Hr.
Qed.

Lemma numeric_only_types_witness :
  ChartRecommender.type
    (ChartRecommender.add "SCATTER" 85 "Correlation between two measures")
  ∈ [ChartType.SCATTER; ChartType.BUBBLE; ChartType.KPI_SINGLE;
     ChartType.GAUGE; ChartType.SPARKLINE; ChartType.TABLE].
Proof.
  apply (numeric_only_types
           [col "Price" TNumber; col "Units" TNumber; col "Paid" TBoolean]
           None None); [reflexivity| |].
  - repeat constructor; discriminate.
  - apply (bool_decide_unpack _). vm_compute. exact I.
Defined.

End Shapes.
Section Panel.

Local Ltac count_cases c n d :=
  destruct c as [|[|c]], n as [|[|[|n]]], d as [|d].






End Panel.
Section Diagram.
Import RelationshipDiagram.

Lemma pushLink_spec ds1 links ds2 :
  pushLink ds1 links ds2
  = links ++ (if decide (shared ds1 ds2 = []) then [] else [linkOf ds1 ds2]).
Proof.
  unfold pushLink. destruct (shared ds1 ds2) as [|n l] eqn:Hs; simpl.
  - by rewrite app_nil_r.
  - done.
Qed.

Lemma shared_nonempty ds1 ds2 :
  shared ds1 ds2 ≠ []
  ↔ ∃ c1 c2, c1 ∈ Dataset.columns ds1 ∧ c2 ∈ Dataset.columns ds2
             ∧ Js.toLowerCase (name c1) = Js.toLowerCase (name c2).
Proof.
  unfold shared. split.
  - intros Hne.
    destruct (filter _ (Dataset.columns ds2)) as [|c2 l] eqn:Hf; [done|].
    assert (Hc2 : c2 ∈ filter (λ c, Js.toLowerCase (name c)
        ∈ (list_to_set ((λ c, Js.toLowerCase (name c))
                          <$> Dataset.columns ds1) : gset string))
        (Dataset.columns ds2)) by (rewrite Hf; left).
    apply list_elem_of_filter in Hc2 as [Hin Hc2].
    apply elem_of_list_to_set, list_elem_of_fmap in Hin as (c1 & Heq & Hc1).
    by exists c1, c2.
  - intros (c1 & c2 & Hc1 & Hc2 & Heq) Hnil.
    apply fmap_nil_inv in Hnil.
    assert (c2 ∉ Dataset.columns ds2); [|done].
    eapply filter_nil_not_elem_of; [exact Hnil|]. simpl.
    apply elem_of_list_to_set, list_elem_of_fmap. by exists c1.
Qed.

Lemma pushLinks_fold ds1 rest acc :
  foldl (pushLink ds1) acc rest
  = acc ++ (rest ≫= λ ds2, if decide (shared ds1 ds2 = []) then []
                           else [linkOf ds1 ds2]).
Proof.
  revert acc. induction rest as [|ds2 rest IH]; intros acc; simpl.
  - by rewrite app_nil_r.
  - by rewrite IH, pushLink_spec, <- app_assoc.
Qed.

Lemma elem_of_linkLoop datasets acc lk :
  lk ∈ linkLoop datasets acc
  ↔ lk ∈ acc
    ∨ ∃ pre ds1 mid ds2 post,
        datasets = pre ++ ds1 :: mid ++ ds2 :: post
        ∧ shared ds1 ds2 ≠ [] ∧ lk = linkOf ds1 ds2.
Proof.
  revert acc. induction datasets as [|ds1 rest IH]; intros acc; simpl.
  - split; [auto|]. intros [?|(pre & ? & ? & ? & ? & Hd & _)]; [done|].
    by destruct pre.
  - rewrite IH, pushLinks_fold, elem_of_app, list_elem_of_bind. split.
    + intros [[?|(ds2 & Hlk & Hds2)]|(pre & d1 & mid & d2 & post & -> & ? & ?)].
      * auto.
      * right. case_decide; [by apply elem_of_nil in Hlk|].
        apply list_elem_of_singleton in Hlk as ->.
        apply list_elem_of_split in Hds2 as (mid & post & ->).
        by exists [], ds1, mid, ds2, post.
      * right. by exists (ds1 :: pre), d1, mid, d2, post.
    + intros [?|(pre & d1 & mid & d2 & post & Hd & Hs & ->)]; [auto|].
      destruct pre as [|d0 pre]; simpl in Hd; injection Hd as -> ->.
      * left. right. exists d2. rewrite decide_False by done.
        split; [apply list_elem_of_here|]. apply elem_of_app. right. left.
      * right. by exists pre, d1, mid, d2, post.
Qed.

Lemma length_linkLoop datasets acc :
  (2 * length (linkLoop datasets acc)
   ≤ 2 * length acc + length datasets * (length datasets - 1))%nat.
Proof.
  revert acc. induction datasets as [|ds1 rest IH]; intros acc; simpl; [lia|].
  specialize (IH (foldl (pushLink ds1) acc rest)).
  assert (length (foldl (pushLink ds1) acc rest)
          ≤ length acc + length rest)%nat.
  { rewrite pushLinks_fold, length_app.
    assert (∀ l : list Dataset.t,
      length (l ≫= λ ds2, if decide (shared ds1 ds2 = []) then []
                          else [linkOf ds1 ds2]) ≤ length l)%nat as H;
      [|specialize (H rest); lia].
    induction l as [|d l IHl]; [simpl; lia|].
    rewrite bind_cons, length_app. case_decide; simpl; lia. }
  nia.
Qed.

(** X23.  The relationship diagram has a link exactly for every pair of
    datasets, the first before the second in the list, that have a column
    name in common up to case, and so at most one per pair of positions. *)
Theorem diagram_links_pairs datasets :
  (∀ lk, lk ∈ links datasets
         ↔ ∃ pre ds1 mid ds2 post,
             datasets = pre ++ ds1 :: mid ++ ds2 :: post
             ∧ (∃ c1 c2, c1 ∈ Dataset.columns ds1
                         ∧ c2 ∈ Dataset.columns ds2
                         ∧ Js.toLowerCase (name c1)
                           = Js.toLowerCase (name c2))
             ∧ lk = linkOf ds1 ds2)
  ∧ (2 * length (links datasets)
     ≤ length datasets * (length datasets - 1))%nat.
Proof.
  split.
  - intros lk. unfold links. rewrite elem_of_linkLoop.
    setoid_rewrite shared_nonempty. split; [|auto].
    intros [?%elem_of_nil|?]; done.
  - pose proof (length_linkLoop datasets []) as H. simpl in H.
    unfold links. lia.
Qed.

(** X24.  Every link counts at least one shared column and is drawn with a
    width between 3 and 8; every node has a size between 40 and 80. *)
Theorem diagram_sizes datasets :
  (∀ lk, lk ∈ links datasets →
         1 ≤ value lk ∧ value lk = Z.of_nat (length (sharedCols lk))
         ∧ 3 ≤ width lk ≤ 8 ∧ width lk = Z.min 8 (1 + 2 * value lk))
  ∧ (∀ ds : Dataset.t, 40 ≤ symbolSize ds ≤ 80).
Proof.
  split.
  - intros lk. unfold links. rewrite elem_of_linkLoop.
    intros [?%elem_of_nil|(_ & ds1 & _ & ds2 & _ & _ & Hs & ->)]; [done|].
    unfold linkOf. simpl. destruct (shared ds1 ds2); [done|]. simpl length.
    lia.
  - intros ds. unfold symbolSize. lia.
Qed.

(** X25.  Every link of the diagram joins two datasets of the list for
    which the first join-key suggestion has confidence 100. *)
Theorem diagram_link_has_exact_suggestion datasets lk :
  lk ∈ links datasets →
  ∃ ds1 ds2,
    ds1 ∈ datasets ∧ ds2 ∈ datasets ∧ lk = linkOf ds1 ds2
    ∧ ∃ s, head (JoinKeys.suggestJoinKeys (Dataset.columns ds1)
                   (Dataset.columns ds2)) = Some s
           ∧ confidence s = 100.
Proof.
  unfold links. rewrite elem_of_linkLoop.
  intros [?%elem_of_nil|(pre & ds1 & mid & ds2 & post & -> & Hs & ->)];
    [done|].
  exists ds1, ds2. split_and!; [set_solver..|done|].
  apply shared_nonempty in Hs as (c1 & c2 & Hc1 & Hc2 & Heq).
  apply (exact_match_first _ _ c1 c2); [done..|].
  unfold JoinKeys.normalizeName. by rewrite Heq.
Qed.

Lemma diagram_witness_links :
  links [Dataset.mk "d1" "Orders" [col "ID" TNumber; col "Total" TNumber] [];
         Dataset.mk "d2" "Staff" [col "Name" TString] [];
         Dataset.mk "d3" "Lines" [col "id" TNumber; col "qty" TNumber] []]
  = [ {| source := "d1"; target := "d3"; value := 1; width := 3;
         sharedCols := ["id"] |} ].
Proof. vm_compute. reflexivity. Qed.

Lemma diagram_links_pairs_witness :
  ∃ pre ds1 mid ds2 post,
    [Dataset.mk "d1" "Orders" [col "ID" TNumber; col "Total" TNumber] [];
     Dataset.mk "d2" "Staff" [col "Name" TString] [];
     Dataset.mk "d3" "Lines" [col "id" TNumber; col "qty" TNumber] []]
    = pre ++ ds1 :: mid ++ ds2 :: post
    ∧ (∃ c1 c2, c1 ∈ Dataset.columns ds1 ∧ c2 ∈ Dataset.columns ds2
                ∧ Js.toLowerCase (name c1) = Js.toLowerCase (name c2))
    ∧ {| source := "d1"; target := "d3"; value := 1; width := 3;
         sharedCols := ["id"] |} = linkOf ds1 ds2.
Proof.
  apply diagram_links_pairs. rewrite diagram_witness_links.
  apply list_elem_of_here.
Defined.

Lemma diagram_sizes_witness :
  3 ≤ width {| source := "d1"; target := "d3"; value := 1; width := 3;
               sharedCols := ["id"] |} ≤ 8.
Proof.
  eapply diagram_sizes. rewrite diagram_witness_links.
  apply list_elem_of_here.
Defined.

Lemma diagram_link_has_exact_suggestion_witness :
  ∃ ds1 ds2,
    ds1 ∈ [Dataset.mk "d1" "Orders"
             [col "ID" TNumber; col "Total" TNumber] [];
           Dataset.mk "d2" "Staff" [col "Name" TString] [];
           Dataset.mk "d3" "Lines" [col "id" TNumber; col "qty" TNumber] []]
    ∧ ds2 ∈ [Dataset.mk "d1" "Orders"
               [col "ID" TNumber; col "Total" TNumber] [];
             Dataset.mk "d2" "Staff" [col "Name" TString] [];
             Dataset.mk "d3" "Lines" [col "id" TNumber; col "qty" TNumber] []]
    ∧ {| source := "d1"; target := "d3"; value := 1; width := 3;
         sharedCols := ["id"] |} = linkOf ds1 ds2
    ∧ ∃ s, head (JoinKeys.suggestJoinKeys (Dataset.columns ds1)
                   (Dataset.columns ds2)) = Some s
           ∧ confidence s = 100.
Proof.
  apply diagram_link_has_exact_suggestion. rewrite diagram_witness_links.
  apply list_elem_of_here.
Defined.

End Diagram.
Section FilterColumns.
Import GlobalFilterBar.

Lemma availableColumns_visited dss :
  availableColumns dss
  = OrdMap.values (foldl addVisited OrdMap.empty (visited dss)).
Proof.
  unfold availableColumns, visited. f_equal.
  generalize (OrdMap.empty (V := AvailableColumn)).
  induction dss as [|ds dss IH]; intros m; [done|].
  rewrite bind_cons, foldl_app. simpl. rewrite IH. f_equal.
  generalize (Dataset.columns ds). clear. intros cs. revert m.
  induction cs as [|c cs IH]; intros m; [done|]. simpl. by rewrite IH.
Qed.

Lemma addVisited_set (m : OrdMap.t AvailableColumn) (d : string)
    (c : Column) :
  addVisited m (d, c)
  = OrdMap.set (name c)
      (match OrdMap.get (name c) m with
       | None => {| column := c; datasets := [d] |}
       | Some entry =>
           {| column := column entry; datasets := datasets entry ++ [d] |}
       end) m.
Proof.
  unfold addVisited, addColumn. simpl. by destruct (OrdMap.get (name c) m).
Qed.

Lemma addVisited_get (ps : list (string * Column)) (k : string) :
  let m := foldl addVisited OrdMap.empty ps in
  NoDup (OrdMap.keys m)
  ∧ OrdMap.get k m
    = match filter (λ p, name p.2 = k) ps with
      | [] => None
      | p :: qs => Some {| column := p.2; datasets := (p :: qs).*1 |}
      end.
Proof.
  induction ps as [|[d c] ps [Hnd IH]] using rev_ind; simpl.
  - split; [constructor|done].
  - rewrite foldl_app, filter_app. simpl.
    set (m := foldl addVisited OrdMap.empty ps) in *.
    rewrite addVisited_set. rewrite filter_cons, filter_nil. simpl.
    split; [by apply ordmap_keys_set_NoDup|].
    destruct (decide (name c = k)) as [<-|Hne].
    + rewrite ordmap_get_set_eq, IH.
      destruct (filter _ ps) as [|p qs]; simpl; [done|].
      by rewrite fmap_app.
    + rewrite app_nil_r. by rewrite ordmap_get_set_ne.
Qed.

(** X26.  The filter bar offers every column name of every dataset once;
    an entry carries the first column visited under its name and the names
    of the datasets of all the columns of that name, in the order
    visited. *)
Theorem availableColumns_entries dss :
  let res := availableColumns dss in
  NoDup ((λ e, name (column e)) <$> res)
  ∧ (∀ n, n ∈ (λ e, name (column e)) <$> res
          ↔ ∃ ds, ds ∈ dss ∧ n ∈ name <$> Dataset.columns ds)
  ∧ (∀ e, e ∈ res →
       ∃ p qs,
         filter (λ p, name p.2 = name (column e)) (visited dss) = p :: qs
         ∧ column e = p.2 ∧ datasets e = (p :: qs).*1).
Proof.
  intros res. subst res. rewrite availableColumns_visited.
  set (m := foldl addVisited OrdMap.empty (visited dss)).
  assert (Hnd : NoDup (OrdMap.keys m)) by apply (addVisited_get _ "").
  assert (Hget : ∀ k, OrdMap.get k m
    = match filter (λ p, name p.2 = k) (visited dss) with
      | [] => None
      | p :: qs => Some {| column := p.2; datasets := (p :: qs).*1 |}
      end) by (intros k; apply addVisited_get).
  assert (Hent : ∀ k e, (k, e) ∈ m →
    ∃ p qs, filter (λ p, name p.2 = k) (visited dss) = p :: qs
            ∧ column e = p.2 ∧ datasets e = (p :: qs).*1 ∧ name p.2 = k).
  { intros k e Hin%(ordmap_elem_get _ _ _ Hnd). rewrite Hget in Hin.
    destruct (filter _ (visited dss)) as [|p qs] eqn:Hf; [done|].
    injection Hin as <-. exists p, qs. split_and!; [done..|].
    assert (Hp : p ∈ filter (λ p, name p.2 = k) (visited dss))
      by (rewrite Hf; left).
    by apply list_elem_of_filter in Hp as [? _]. }
  assert (Hk : (λ e, name (column e)) <$> OrdMap.values m = OrdMap.keys m).
  { unfold OrdMap.values, OrdMap.keys. rewrite <- list_fmap_compose.
    apply Forall_fmap_ext, Forall_forall. intros [k e] Hin. simpl.
    destruct (Hent _ _ Hin) as (p & qs & _ & -> & _ & ?). done. }
  split_and!.
  - by rewrite Hk.
  - intros n. rewrite Hk. unfold visited.
    destruct (decide (n ∈ OrdMap.keys m)) as [Hin|Hnin].
    + split; [intros _|done].
      apply (list_elem_of_fmap_1 fst) in Hin as ([k e] & -> & Hin).
      destruct (Hent _ _ Hin) as (p & qs & Hf & _ & _ & Hp).
      assert (Hpin : p ∈ filter (λ p, name p.2 = k) (visited dss))
        by (rewrite Hf; left).
      apply list_elem_of_filter in Hpin as [_ Hpin]. unfold visited in Hpin.
      apply list_elem_of_bind in Hpin as (ds & Hpin & Hds).
      apply list_elem_of_fmap in Hpin as (c & -> & Hc).
      exists ds. split; [done|]. simpl in *. subst k.
      by apply list_elem_of_fmap_2.
    + split; [done|]. intros (ds & Hds & (c & -> & Hc)%list_elem_of_fmap).
      exfalso. apply ordmap_get_None in Hnin. rewrite Hget in Hnin.
      assert (Hp : (Dataset.name ds, c)
                   ∈ filter (λ p, name p.2 = name c) (visited dss)).
      { apply list_elem_of_filter. split; [done|]. unfold visited.
        apply list_elem_of_bind. exists ds. split; [|done].
        by apply list_elem_of_fmap_2. }
      destruct (filter _ (visited dss)); [by apply elem_of_nil in Hp|done].
  - intros e ([k e'] & -> & Hin)%list_elem_of_fmap. simpl.
    destruct (Hent _ _ Hin) as (p & qs & Hf & Hc & Hd & Hp).
    exists p, qs. split_and!; [|done..]. by rewrite Hc, Hp.
Qed.

Lemma availableColumns_witness_value :
  availableColumns
    [Dataset.mk "d1" "Orders" [col "id" TNumber; col "total" TNumber] [];
     Dataset.mk "d2" "Lines" [col "id" TString; col "qty" TNumber] []]
  = [ {| column := col "id" TNumber; datasets := ["Orders"; "Lines"] |};
      {| column := col "total" TNumber; datasets := ["Orders"] |};
      {| column := col "qty" TNumber; datasets := ["Lines"] |} ].
Proof. vm_compute. reflexivity. Qed.

Lemma availableColumns_entries_witness :
  ∃ p qs,
    filter (λ p, name p.2 = "id")
      (visited
         [Dataset.mk "d1" "Orders" [col "id" TNumber; col "total" TNumber] [];
          Dataset.mk "d2" "Lines" [col "id" TString; col "qty" TNumber] []])
    = p :: qs
    ∧ col "id" TNumber = p.2 ∧ ["Orders"; "Lines"] = (p :: qs).*1.
Proof.
  destruct (availableColumns_entries
    [Dataset.mk "d1" "Orders" [col "id" TNumber; col "total" TNumber] [];
     Dataset.mk "d2" "Lines" [col "id" TString; col "qty" TNumber] []])
    as (_ & _ & H).
  apply (H {| column := col "id" TNumber; datasets := ["Orders"; "Lines"] |}).
  rewrite availableColumns_witness_value. apply list_elem_of_here.
Defined.

End FilterColumns.
